(** * Maala: subscription lifecycle, geo-distance utilities and seller ratings

    A shallow embedding of
      - server/src/services/subscriptionService.ts and the POST /renew
        handler of server/src/routes/subscription.ts,
      - the pure functions of server/src/utils/geolocation.ts,
      - LocalSellerService.addReview of
        server/src/services/LocalSellerService.ts,
      - the product updates of the same service, the other subscription
        routes, and the reducers of client/src/store/slices/userSlice.ts
        and searchSlice.ts that keep the search history and the merchant
        filter,
    together with the properties the specification states about them.

    Conventions.
      - A [Date] is the number of milliseconds since the epoch (what
        [Date.prototype.getTime] returns); [new Date()] is an explicit
        argument [now].
      - A Mongoose collection is the list of its documents in natural order;
        a document is identified by its position.  [findOne] yields the
        first match, [save] writes the document back at its position,
        [updateMany] rewrites every match.  Of the schema validators that
        a save runs, the range of a review's rating is modelled, where the
        code adds a review; the timestamps the ODM maintains are not part
        of the model.
      - A JavaScript exception is the [Throw] outcome of a [Result].
      - JavaScript numbers are computed with exactly: rationals where the
        code only uses field operations, comparison and rounding, real
        numbers where it calls the trigonometric functions.  A statement
        that holds in exact arithmetic only says so.  Module [Doubles] has
        the bodies of two numeric functions over binary64, for the inputs
        at which rounding, or NaN, makes the code answer otherwise. *)

From Stdlib Require Import ZArith QArith Qround Reals Psatz.
From Stdlib Require Floats.PrimFloat.
From stdpp Require Import base option list strings.

Set Warnings "-inexact-float".

Local Open Scope string_scope.
Local Open Scope list_scope.
Local Open Scope Z_scope.

(** ** Outcomes of a call *)

Record Error := mkError { message : string }.

Inductive Result (A : Type) : Type :=
  | Ok (a : A)
  | Throw (e : Error).
Arguments Ok {A} a.
Arguments Throw {A} e.

Definition Date := Z.

(** ** A calendar for running examples

    [addMonths] belongs to date-fns, and the development is parametric in
    it.  Where an example has to run, months of thirty days stand in. *)

Definition msPerDay : Z := 1000 * 60 * 60 * 24.

Definition thirtyDayMonths (d : Date) (n : Z) : Date := d + n * (30 * msPerDay).

(** ** The subscription model (models/subscription.ts) *)

Module Subscription.

Inductive Status := active | inactive | trial.

Inductive PaymentStatus := success | failed | pending.

#[global] Instance Status_eq_dec : EqDecision Status.
Proof. solve_decision. Defined.

Record Payment := mkPayment {
  amount : Q;
  date : Date;
  transactionId : string;
  paymentStatus : PaymentStatus
}.

Record ISubscription := mkSubscription {
  userId : string;
  type : string;
  status : Status;
  startDate : Date;
  endDate : Date;
  isTrial : bool;
  trialEndDate : option Date;
  paymentHistory : list Payment;
  autoRenew : bool;
  lastPaymentDate : option Date;
  nextPaymentDate : option Date
}.

Abbreviation Collection := (list ISubscription).

(** *** Queries and writes of the document store *)

(** The filter [{ userId, type }]. *)
Definition byUserAndType (u t : string) (s : ISubscription) : Prop :=
  userId s = u ∧ type s = t.

(** The filter [{ status: { $in: ["active", "trial"] } }]. *)
Definition statusInActiveTrial (s : ISubscription) : Prop :=
  status s = active ∨ status s = trial.

(** The filter of [isSubscriptionActive]:
    [{ userId, type, status: { $in: [...] }, endDate: { $gt: now } }]. *)
Definition activeFilter (now : Date) (u t : string) (s : ISubscription) : Prop :=
  byUserAndType u t s ∧ statusInActiveTrial s ∧ now < endDate s.

(** The filter of the expiry sweep:
    [{ endDate: { $lt: now }, status: { $in: [...] } }]. *)
Definition expiredFilter (now : Date) (s : ISubscription) : Prop :=
  endDate s < now ∧ statusInActiveTrial s.

#[global] Instance byUserAndType_dec u t s : Decision (byUserAndType u t s).
Proof. unfold byUserAndType. apply _. Defined.
#[global] Instance statusInActiveTrial_dec s : Decision (statusInActiveTrial s).
Proof. unfold statusInActiveTrial. apply _. Defined.
#[global] Instance activeFilter_dec now u t s : Decision (activeFilter now u t s).
Proof. unfold activeFilter. apply _. Defined.
#[global] Instance expiredFilter_dec now s : Decision (expiredFilter now s).
Proof. unfold expiredFilter. apply _. Defined.

(** [Model.findOne(filter)]: position and content of the first match. *)
Definition findOne (P : ISubscription → Prop) `{!∀ s, Decision (P s)}
    (db : Collection) : option (nat * ISubscription) :=
  list_find P db.

(** [doc.save()] for a document loaded from position [i]. *)
Definition save (i : nat) (s : ISubscription) (db : Collection) : Collection :=
  <[i := s]> db.

(** [Model.create(doc)]. *)
Definition create (s : ISubscription) (db : Collection) : Collection :=
  db ++ [s].

(** [Model.updateMany(filter, { status })]. *)
Definition setStatus (st : Status) (s : ISubscription) : ISubscription :=
  mkSubscription (userId s) (type s) st (startDate s) (endDate s) (isTrial s)
    (trialEndDate s) (paymentHistory s) (autoRenew s)
    (lastPaymentDate s) (nextPaymentDate s).

Definition updateManyStatus (P : ISubscription → Prop) `{!∀ s, Decision (P s)}
    (st : Status) (db : Collection) : Collection :=
  (λ s, if decide (P s) then setStatus st s else s) <$> db.


(** *** SubscriptionService (services/subscriptionService.ts)

    Every method takes the clock reading [now] and the collection [db], and
    returns its outcome together with the collection it leaves behind. *)

Section Service.

(** [addMonths] of the date-fns package. *)
Variable addMonths : Date → Z → Date.

Definition createSubscription (now : Date) (db : Collection)
    (userId type : string) : Result ISubscription * Collection :=
  let startDate := now in
  let endDate := addMonths startDate 3 in
  let trialEndDate := endDate in
  let doc := mkSubscription userId type trial startDate endDate true
               (Some trialEndDate) [] true None None in
  (Ok doc, create doc db).

Definition getSubscriptionStatus (db : Collection)
    (userId type : string) : option ISubscription :=
  snd <$> findOne (byUserAndType userId type) db.

Definition isSubscriptionActive (now : Date) (db : Collection)
    (userId type : string) : bool :=
  match findOne (activeFilter now userId type) db with
  | Some _ => true
  | None => false
  end.

Definition renewed (now : Date) (amount : Q) (transactionId : string)
    (s : ISubscription) : ISubscription :=
  let newEndDate := addMonths now 1 in
  mkSubscription (userId s) (type s) active (startDate s) newEndDate false
    (trialEndDate s)
    (paymentHistory s ++ [mkPayment amount now transactionId success])
    (autoRenew s) (Some now) (Some newEndDate).

Definition renewSubscription (now : Date) (db : Collection)
    (userId type : string) (amount : Q) (transactionId : string)
    : Result ISubscription * Collection :=
  match findOne (byUserAndType userId type) db with
  | None => (Throw (mkError "Subscription not found"), db)
  | Some (i, subscription) =>
      let subscription' := renewed now amount transactionId subscription in
      (Ok subscription', save i subscription' db)
  end.

Definition cancelled (s : ISubscription) : ISubscription :=
  mkSubscription (userId s) (type s) (status s) (startDate s) (endDate s)
    (isTrial s) (trialEndDate s) (paymentHistory s) false
    (lastPaymentDate s) (nextPaymentDate s).

Definition cancelSubscription (db : Collection) (userId type : string)
    : Result ISubscription * Collection :=
  match findOne (byUserAndType userId type) db with
  | None => (Throw (mkError "Subscription not found"), db)
  | Some (i, subscription) =>
      let subscription' := cancelled subscription in
      (Ok subscription', save i subscription' db)
  end.

Definition updateSubscriptionStatus (now : Date) (db : Collection) : Collection :=
  updateManyStatus (expiredFilter now) inactive db.

(** *** POST /renew (routes/subscription.ts)

    The fields of the request body are whatever the JSON of the request
    holds: nothing types them before the guard tests them. *)

Inductive JsValue :=
  | JsUndefined
  | JsNull
  | JsBoolean (b : bool)
  | JsNumber (q : Q)
  | JsString (s : string)
  | JsComposite.

(** JavaScript's truthiness; [JsComposite] is an array or an object. *)
Definition truthy (v : JsValue) : bool :=
  match v with
  | JsUndefined | JsNull => false
  | JsBoolean b => b
  | JsNumber q => negb (Qeq_bool q 0)
  | JsString s => negb (bool_decide (s = ""))
  | JsComposite => true
  end.

Record RenewBody := mkRenewBody {
  body_type : JsValue;
  body_amount : JsValue;
  body_transactionId : JsValue
}.

Inductive Json :=
  | JsonSubscription (s : ISubscription)
  | JsonError (error : string).

Record Response := mkResponse { statusCode : Z; json : Json }.

(** JavaScript's [!v] on a string or undefined. *)
Definition notString (v : option string) : bool :=
  match v with
  | None => true
  | Some s => bool_decide (s = "")
  end.

(** What the service and the ODM under it make of a body that passed the
    guard with a field of another type than the service declares (a
    numeric string as amount, a number as transaction id, a query object as
    type): casts, cast errors and query operators are the ODM's. *)
Variable renewUntyped :
  Date → Collection → string → RenewBody → Response * Collection.

Definition renewHandler (now : Date) (db : Collection) (reqUserId : string)
    (body : RenewBody) : Response * Collection :=
  if negb (truthy (body_type body)) || negb (truthy (body_amount body))
     || negb (truthy (body_transactionId body))
  then (mkResponse 400 (JsonError "Missing required fields"), db)
  else
    match body_type body, body_amount body, body_transactionId body with
    | JsString type, JsNumber amount, JsString transactionId =>
        match renewSubscription now db reqUserId type amount transactionId with
        | (Ok subscription, db') =>
            (mkResponse 200 (JsonSubscription subscription), db')
        | (Throw _, db') =>
            (mkResponse 500 (JsonError "Failed to renew subscription"), db')
        end
    | _, _, _ => renewUntyped now db reqUserId body
    end.

End Service.

(** A stand-in for [renewUntyped] where an example has to run; the examples
    send typed bodies and do not reach it. *)
Definition untypedFails (now : Date) (db : Collection) (reqUserId : string)
    (body : RenewBody) : Response * Collection :=
  (mkResponse 500 (JsonError "Failed to renew subscription"), db).

(** The expiry sweep, document by document. *)
Definition swept (now : Date) (s : ISubscription) : ISubscription :=
  if decide (expiredFilter now s) then setStatus inactive s else s.

(** *** The remaining service method and route handlers *)

(** [isAfter(date, dateToCompare)] of date-fns. *)
Definition isAfter (date dateToCompare : Date) : bool := dateToCompare <? date.

(** The filter [{ userId, type, isTrial: true }]. *)
Definition trialFilter (u t : string) (s : ISubscription) : Prop :=
  byUserAndType u t s ∧ isTrial s = true.

#[global] Instance trialFilter_dec u t s : Decision (trialFilter u t s).
Proof. unfold trialFilter. apply _. Defined.

(** [number | null]: the days are whole, [null] is [None]. *)
Definition getTrialDaysRemaining (now : Date) (db : Collection)
    (userId type : string) : option Z :=
  match findOne (trialFilter userId type) db with
  | None => None
  | Some (_, subscription) =>
      match trialEndDate subscription with
      | None => None
      | Some trialEnd =>
          if isAfter now trialEnd then Some 0
          else
            let diffTime := trialEnd - now in
            Some (Qceiling (inject_Z diffTime / inject_Z msPerDay))
      end
  end.

(** The days that remain, for a trial that ends at [e]. *)
Definition daysUntil (now e : Date) : Z :=
  if isAfter now e then 0
  else Qceiling (inject_Z (e - now) / inject_Z msPerDay).

(** The answer of a handler: a status code with a JSON payload or with
    [{ error }]. *)
Inductive Body (A : Type) : Type :=
  | BodyJson (a : A)
  | BodyError (error : string).
Arguments BodyJson {A} a.
Arguments BodyError {A} error.

Record Reply (A : Type) := mkReply { replyStatus : Z; replyBody : Body A }.
Arguments mkReply {A} replyStatus replyBody.
Arguments replyStatus {A} r.
Arguments replyBody {A} r.

(** The guard [!type || (type !== "seller" && type !== "buyer")]. *)
Definition invalidType (type : option string) : bool :=
  notString type
  || (negb (bool_decide (type = Some "seller"))
      && negb (bool_decide (type = Some "buyer"))).

(** GET /status *)
Definition statusHandler (db : Collection) (reqUserId : string)
    (type : option string) : Reply (option ISubscription) * Collection :=
  if invalidType type
  then (mkReply 400 (BodyError "Invalid subscription type"), db)
  else
    (mkReply 200
       (BodyJson (getSubscriptionStatus db reqUserId (default "" type))), db).

(** POST /create *)
Definition createHandler (addMonths : Date → Z → Date) (now : Date)
    (db : Collection) (reqUserId : string) (type : option string)
    : Reply ISubscription * Collection :=
  if invalidType type
  then (mkReply 400 (BodyError "Invalid subscription type"), db)
  else
    match createSubscription addMonths now db reqUserId (default "" type) with
    | (Ok subscription, db') => (mkReply 201 (BodyJson subscription), db')
    | (Throw _, db') =>
        (mkReply 500 (BodyError "Failed to create subscription"), db')
    end.

(** POST /cancel *)
Definition cancelHandler (db : Collection) (reqUserId : string)
    (type : option string) : Reply ISubscription * Collection :=
  if invalidType type
  then (mkReply 400 (BodyError "Invalid subscription type"), db)
  else
    match cancelSubscription db reqUserId (default "" type) with
    | (Ok subscription, db') => (mkReply 200 (BodyJson subscription), db')
    | (Throw _, db') =>
        (mkReply 500 (BodyError "Failed to cancel subscription"), db')
    end.

(** GET /trial-days: the payload is [{ daysRemaining }]. *)
Definition trialDaysHandler (now : Date) (db : Collection) (reqUserId : string)
    (type : option string) : Reply (option Z) * Collection :=
  if invalidType type
  then (mkReply 400 (BodyError "Invalid subscription type"), db)
  else
    (mkReply 200
       (BodyJson (getTrialDaysRemaining now db reqUserId (default "" type))),
     db).

(** *** Documents for the examples *)

(** A trial subscription of user [u1], created at time 0 and ending at
    time 100. *)
Definition trialSub : ISubscription :=
  mkSubscription "u1" "seller" trial 0 100 true (Some 100) [] true None None.

(** [trialSub] after a renewal at time 50 that pays the amount -5. *)
Definition paidSub : ISubscription :=
  mkSubscription "u1" "seller" active 0 (thirtyDayMonths 50 1) false (Some 100)
    [mkPayment (-5) 50 "tx-1" success] true (Some 50)
    (Some (thirtyDayMonths 50 1)).

End Subscription.

(** ** Geo-distance and routing utilities (utils/geolocation.ts) *)

Module Geolocation.

(** *** Haversine distance, over the reals *)

Section Distance.
Local Open Scope R_scope.

(** Convert degrees to radians. *)
Definition toRad (degrees : R) : R := degrees * (PI / 180).

(** [Math.atan2(y, x)]. *)
Definition atan2 (y x : R) : R :=
  if Rlt_dec 0 x then atan (y / x)
  else if Rlt_dec x 0 then
    (if Rle_dec 0 y then atan (y / x) + PI else atan (y / x) - PI)
  else if Rlt_dec 0 y then PI / 2
  else if Rlt_dec y 0 then - (PI / 2)
  else 0.

Definition calculateDistance (lat1 lon1 lat2 lon2 : R) : R :=
  let R_ := 6371 in
  let dLat := toRad (lat2 - lat1) in
  let dLon := toRad (lon2 - lon1) in
  let a :=
    sin (dLat / 2) * sin (dLat / 2) +
    cos (toRad lat1) * cos (toRad lat2) * sin (dLon / 2) * sin (dLon / 2) in
  let c := 2 * atan2 (sqrt a) (sqrt (1 - a)) in
  R_ * c.

Definition isWithinRadius (pointLat pointLon centerLat centerLon radius : R)
    : bool :=
  if Rle_dec (calculateDistance pointLat pointLon centerLat centerLon) radius
  then true else false.

(** Neither body contains a [throw], and the [Math] functions they call
    return for every argument: a call always completes normally. *)
Definition calculateDistance_call (lat1 lon1 lat2 lon2 : R) : Result R :=
  Ok (calculateDistance lat1 lon1 lat2 lon2).

Definition isWithinRadius_call
    (pointLat pointLon centerLat centerLon radius : R) : Result bool :=
  Ok (isWithinRadius pointLat pointLon centerLat centerLon radius).

(** The coordinate ranges of a valid GeoPoint. *)
Definition validLatitude (lat : R) : Prop := -90 <= lat <= 90.
Definition validLongitude (lon : R) : Prop := -180 <= lon <= 180.

End Distance.

(** *** Delivery estimates, over the rationals *)

Section Delivery.
Local Open Scope Q_scope.

(** [Math.round]: the nearest integer, a tie going up. *)
Definition Math_round (x : Q) : Q := inject_Z (Qfloor (x + (1 # 2))).

Definition calculateDeliveryTime (distance : Q) : Q :=
  Math_round (30 + distance * 2).

(** The default of the parameter [baseDeliveryCost]. *)
Definition defaultBaseDeliveryCost : Q := 50.

Definition calculateDeliveryCost (distance freeDeliveryRadius : Q)
    (baseDeliveryCost : Q) : Q :=
  if Qle_bool distance freeDeliveryRadius then 0
  else baseDeliveryCost + Math_round ((distance - freeDeliveryRadius) * 5).

End Delivery.

(** *** Route ordering

    The nearest-neighbour loop, for any point type, any distance and any
    strict comparison of distances.  [minDistance] starts at [Infinity],
    which every distance is below: it is [None] until a first distance has
    been seen. *)

Section NearestNeighbour.
Context {P D : Type}.
Variable distance : P → P → D.
Variable lt : D → D → bool.

Definition belowMin (d : D) (minDistance : option D) : bool :=
  match minDistance with
  | None => true
  | Some m => lt d m
  end.

(** The [for] loop over [unvisited], entered at index [i] with the elements
    from [i] on still to scan. *)
Fixpoint scanNearest (current : P) (rest : list P) (i : nat)
    (nearestIndex : nat) (minDistance : option D) : nat :=
  match rest with
  | [] => nearestIndex
  | p :: rest' =>
      let d := distance current p in
      if belowMin d minDistance
      then scanNearest current rest' (S i) i (Some d)
      else scanNearest current rest' (S i) nearestIndex minDistance
  end.

Definition findNearestIndex (current : P) (unvisited : list P) : nat :=
  scanNearest current unvisited 0%nat 0%nat None.

(** The [while (unvisited.length > 0)] loop.  [fuel] bounds the number of
    iterations; [None] stands for a run that does not hand back a route:
    the fuel is used up, or [unvisited[nearestIndex]] is undefined and the
    next iteration dereferences it. *)
Fixpoint visitLoop (fuel : nat) (current : P) (unvisited route : list P)
    : option (list P) :=
  match unvisited with
  | [] => Some route
  | _ :: _ =>
      match fuel with
      | O => None
      | S fuel' =>
          let nearestIndex := findNearestIndex current unvisited in
          match unvisited !! nearestIndex with
          | Some nearest =>
              visitLoop fuel' nearest (delete nearestIndex unvisited)
                (route ++ [nearest])
          | None => None
          end
      end
  end.

Definition optimalRoute (points : list P) : option (list P) :=
  if (length points <=? 2)%nat then Some points
  else
    match points with
    | current :: unvisited =>
        visitLoop (length unvisited) current unvisited [current]
    | [] => None
    end.

(** What the scan knows after the prefix [pre]: nothing if it has seen no
    point, otherwise the index of a point of [pre] that every earlier one is
    strictly farther than and no later one is closer than. *)
Definition scanned (current : P) (pre : list P) (nearestIndex : nat)
    (minDistance : option D) : Prop :=
  match minDistance with
  | None => pre = []
  | Some m =>
      ∃ p, pre !! nearestIndex = Some p ∧ m = distance current p ∧
        ∀ j q, pre !! j = Some q →
          ((j < nearestIndex)%nat → lt m (distance current q) = true) ∧
          ((nearestIndex < j)%nat → lt (distance current q) m = false)
  end.

End NearestNeighbour.

(** What the specification asks of the order, for a relation [closer] that
    says when one distance is strictly below another: starting from
    [current], the next stop is a point of [unvisited] (kept in input
    order) that no remaining point is closer than, and that every remaining
    point before it is strictly farther than. *)

Section Specification.
Context {P D : Type}.
Variable distance : P → P → D.
Variable closer : D → D → Prop.

Inductive NearestFirst : P → list P → list P → Prop :=
  | NearestFirst_nil current : NearestFirst current [] []
  | NearestFirst_cons current before nearest after route :
      (∀ q, q ∈ before →
         closer (distance current nearest) (distance current q)) →
      (∀ q, q ∈ after →
         ¬ closer (distance current q) (distance current nearest)) →
      NearestFirst nearest (before ++ after) route →
      NearestFirst current (before ++ nearest :: after) (nearest :: route).

End Specification.

Record Point := mkPoint { latitude : R; longitude : R }.

Definition pointDistance (p q : Point) : R :=
  calculateDistance (latitude p) (longitude p) (latitude q) (longitude q).

(** [x < y] on numbers. *)
Definition Rltb (x y : R) : bool := if Rlt_dec x y then true else false.

Definition calculateOptimalRoute (points : list Point) : option (list Point) :=
  optimalRoute pointDistance Rltb points.

(** The accumulation of [calculateRouteDistance]: [totalDistance] after the
    legs of [route] have been added. *)
Fixpoint sumLegs (route : list Point) (totalDistance : R) : R :=
  match route with
  | p :: (q :: _) as rest => sumLegs rest (totalDistance + pointDistance p q)
  | _ => totalDistance
  end.

Definition calculateRouteDistance (route : list Point) : R := sumLegs route 0.

(** Points of a line and the distance between them, to run the route loop
    on. *)
Definition lineDistance (a b : Z) : Z := Z.abs (a - b).

End Geolocation.

(** ** The numeric functions in IEEE binary64

    The bodies of [calculateDistance] and [calculateDeliveryCost] once more,
    with the operations of the code's numbers: binary64 with rounding to
    nearest, NaN and the infinities.  [Math.sin], [Math.cos] and
    [Math.atan2] are the engine's and are handed in. *)

Module Doubles.
Import PrimFloat.
Local Open Scope float_scope.

Record MathLibrary := mkMath {
  Math_sin : float → float;
  Math_cos : float → float;
  Math_atan2 : float → float → float
}.

Definition Math_PI : float := 3.141592653589793.

Definition toRad (degrees : float) : float := degrees * (Math_PI / 180).

Section Haversine.
Variable M : MathLibrary.

(** The local [a] of [calculateDistance]. *)
Definition haversine (lat1 lon1 lat2 lon2 : float) : float :=
  let dLat := toRad (lat2 - lat1) in
  let dLon := toRad (lon2 - lon1) in
  Math_sin M (dLat / 2) * Math_sin M (dLat / 2) +
  Math_cos M (toRad lat1) * Math_cos M (toRad lat2) *
    Math_sin M (dLon / 2) * Math_sin M (dLon / 2).

Definition calculateDistance (lat1 lon1 lat2 lon2 : float) : float :=
  let R_ := 6371 in
  let a := haversine lat1 lon1 lat2 lon2 in
  let c := 2 * Math_atan2 M (sqrt a) (sqrt (1 - a)) in
  R_ * c.

End Haversine.

(** [Math.ceil] and [Math.round] (the nearest integer, a tie going up), up
    to the sign of a zero result.  Below 2^52 in magnitude, adding and
    taking away 2^52 rounds to an integer; from 2^52 on every number is
    one. *)
Definition two52 : float := 4503599627370496.

Definition Math_ceil (x : float) : float :=
  if is_nan x then x
  else if two52 <=? abs x then x
  else
    let t := if 0 <=? x then (x + two52) - two52 else (x - two52) + two52 in
    if t <? x then t + 1 else t.

Definition Math_round (x : float) : float :=
  let ceil := Math_ceil x in
  if x <? ceil - 0.5 then ceil - 1 else ceil.

Definition calculateDeliveryCost (distance freeDeliveryRadius : float)
    (baseDeliveryCost : float) : float :=
  if distance <=? freeDeliveryRadius then 0
  else baseDeliveryCost + Math_round ((distance - freeDeliveryRadius) * 5).

(** A stand-in for the engine's library where an example has to run: the
    correctly rounded sine and cosine at the four angles the example meets,
    and of [Math.atan2] only what the language fixes, NaN for a NaN
    argument.  The sine and the cosine answer NaN at any other angle, and
    the arc tangent is left at 0 where it is not NaN. *)
Definition tabulatedSin (x : float) : float :=
  if x =? 1.4311699866353502 then 0.9902680687415704
  else if x =? -1.4311699866353502 then -0.9902680687415704
  else if x =? 1.5707963267948966 then 1
  else if x =? -1.5707963267948966 then -1
  else nan.

Definition tabulatedCos (x : float) : float :=
  if abs x =? 1.4311699866353502 then 0.13917310096006547 else nan.

Definition nanAtan2 (y x : float) : float :=
  if is_nan y || is_nan x then nan else 0.

Definition tabulatedMath : MathLibrary :=
  mkMath tabulatedSin tabulatedCos nanAtan2.

End Doubles.

(** ** Seller ratings (models/LocalSeller.ts, services/LocalSellerService.ts) *)

Module LocalSeller.
Local Open Scope Q_scope.

Record Review := mkReview {
  userId : string;
  rating : Q;
  comment : option string;
  createdAt : Date
}.

(** [count] is the stored number of ratings: 0 by default, and only ever
    incremented. *)
Record Ratings := mkRatings {
  average : Q;
  count : nat;
  reviews : list Review
}.

Inductive SellerStatus := active | inactive | suspended.

(** The fields of a seller document that the rating code reads or writes,
    and those that identify the seller. *)
Record ILocalSeller := mkSeller {
  _id : string;
  businessName : string;
  products : list string;
  ratings : Ratings;
  status : SellerStatus
}.

Abbreviation Collection := (list ILocalSeller).

(** A count as a number. *)
Definition ofCount (n : nat) : Q := inject_Z (Z.of_nat n).

(** [LocalSeller.findById]. *)
Definition findById (sellerId : string) (db : Collection)
    : option (nat * ILocalSeller) :=
  list_find (λ s, _id s = sellerId) db.

Definition reviewed (now : Date) (userId : string) (rating : Q)
    (comment : option string) (seller : ILocalSeller) : ILocalSeller :=
  let totalRatings := count (ratings seller) in
  let currentAverage := average (ratings seller) in
  let newAverage :=
    (currentAverage * ofCount totalRatings + rating) / (ofCount totalRatings + 1) in
  mkSeller (_id seller) (businessName seller) (products seller)
    (mkRatings newAverage (totalRatings + 1)%nat
       (reviews (ratings seller) ++ [mkReview userId rating comment now]))
    (status seller).

(** The validators that [seller.save()] runs on the reviews of the document:
    a rating has [min: 1] and [max: 5]. *)
Definition validRating (rating : Q) : bool :=
  Qle_bool 1 rating && Qle_bool rating 5.

Definition validate (seller : ILocalSeller) : bool :=
  forallb (λ review, validRating (rating review)) (reviews (ratings seller)).

(** A failed validation rejects the save: the error is a ValidationError
    whose message starts as below and goes on to name the path, and nothing
    is stored. *)
Definition addReview (now : Date) (db : Collection) (sellerId userId : string)
    (rating : Q) (comment : option string) : Result ILocalSeller * Collection :=
  match findById sellerId db with
  | None => (Throw (mkError "Seller not found"), db)
  | Some (i, seller) =>
      let seller' := reviewed now userId rating comment seller in
      if validate seller' then (Ok seller', <[i := seller']> db)
      else (Throw (mkError "LocalSeller validation failed"), db)
  end.

(** The arithmetic mean of the ratings of a list of reviews. *)
Definition sumRatings (rs : list Review) : Q :=
  foldr (λ r acc, rating r + acc) 0 rs.

Definition meanRating (rs : list Review) : Q :=
  sumRatings rs / ofCount (length rs).

(** The stored aggregate agrees with the stored reviews: [count] is their
    number and, when there is one at least, [average] is their mean. *)
Definition countIsLength (r : Ratings) : Prop :=
  count r = length (reviews r).

Definition averageIsMean (r : Ratings) : Prop :=
  reviews r ≠ [] → average r == meanRating (reviews r).

(** *** Products of a seller *)

(** The update operators [$addToSet] and [$pull] on an array of ids. *)
Definition addToSet (productId : string) (products : list string)
    : list string :=
  if decide (productId ∈ products) then products else products ++ [productId].

Definition pull (productId : string) (products : list string) : list string :=
  filter (λ p, p ≠ productId) products.

Definition withProducts (products : list string) (seller : ILocalSeller)
    : ILocalSeller :=
  mkSeller (_id seller) (businessName seller) products (ratings seller)
    (status seller).

(** [findByIdAndUpdate(sellerId, update, { new: true })]: the document after
    the update, or [null] when there is none with that id. *)
Definition findByIdAndUpdate (sellerId : string)
    (update : ILocalSeller → ILocalSeller) (db : Collection)
    : option ILocalSeller * Collection :=
  match findById sellerId db with
  | None => (None, db)
  | Some (i, seller) => (Some (update seller), <[i := update seller]> db)
  end.

Definition addProduct (db : Collection) (sellerId productId : string)
    : option ILocalSeller * Collection :=
  findByIdAndUpdate sellerId
    (λ seller, withProducts (addToSet productId (products seller)) seller) db.

Definition removeProduct (db : Collection) (sellerId productId : string)
    : option ILocalSeller * Collection :=
  findByIdAndUpdate sellerId
    (λ seller, withProducts (pull productId (products seller)) seller) db.

(** Both, for a seller document. *)
Definition consistentRatings (seller : ILocalSeller) : Prop :=
  countIsLength (ratings seller) ∧ averageIsMean (ratings seller).

(** A seller as registration leaves it: no rating yet. *)
Definition freshSeller : ILocalSeller :=
  mkSeller "s1" "Shop" [] (mkRatings 0 0 []) active.

(** A seller whose stored count, 3, is not the number of its reviews, 1. *)
Definition miscountedSeller : ILocalSeller :=
  mkSeller "s2" "Shop" [] (mkRatings 4 3 [mkReview "u1" 4 None 0%Z]) active.

End LocalSeller.

(** ** Client state (client/src/store/slices) *)

Module Store.

(** *** userSlice.ts *)

Record User := mkUser {
  id : string;
  email : string;
  name : string;
  avatar : string
}.

Record UserPreferences := mkUserPreferences {
  language : string;
  notifications : bool;
  locationSharing : bool;
  dataCollection : bool
}.

Record SearchEntry := mkSearchEntry {
  query : string;
  results : Q;
  timestamp : Z
}.

Record UserState := mkUserState {
  isAuthenticated : bool;
  user : option User;
  preferences : UserPreferences;
  searchHistory : list SearchEntry
}.

Definition initialPreferences : UserPreferences :=
  mkUserPreferences "en" true false true.

Definition initialState : UserState :=
  mkUserState false None initialPreferences [].

Inductive UserAction :=
  | setUser (payload : option User)
  | setLanguage (payload : string)
  | toggleNotifications
  | toggleLocationSharing
  | toggleDataCollection
  | addSearchHistory (payloadQuery : string) (payloadResults : Q)
  | clearSearchHistory
  | deleteAccount.

(** [array.pop()]: the array without its last element. *)
Definition pop {A : Type} (l : list A) : list A := take (length l - 1) l.

(** The reducer of the slice; [now] is what [Date.now()] returns. *)
Definition userReducer (now : Z) (state : UserState) (action : UserAction)
    : UserState :=
  match action with
  | setUser payload =>
      mkUserState (bool_decide (is_Some payload)) payload (preferences state)
        (searchHistory state)
  | setLanguage payload =>
      mkUserState (isAuthenticated state) (user state)
        (mkUserPreferences payload (notifications (preferences state))
           (locationSharing (preferences state))
           (dataCollection (preferences state)))
        (searchHistory state)
  | toggleNotifications =>
      mkUserState (isAuthenticated state) (user state)
        (mkUserPreferences (language (preferences state))
           (negb (notifications (preferences state)))
           (locationSharing (preferences state))
           (dataCollection (preferences state)))
        (searchHistory state)
  | toggleLocationSharing =>
      mkUserState (isAuthenticated state) (user state)
        (mkUserPreferences (language (preferences state))
           (notifications (preferences state))
           (negb (locationSharing (preferences state)))
           (dataCollection (preferences state)))
        (searchHistory state)
  | toggleDataCollection =>
      mkUserState (isAuthenticated state) (user state)
        (mkUserPreferences (language (preferences state))
           (notifications (preferences state))
           (locationSharing (preferences state))
           (negb (dataCollection (preferences state))))
        (searchHistory state)
  | addSearchHistory payloadQuery payloadResults =>
      let unshifted :=
        mkSearchEntry payloadQuery payloadResults now :: searchHistory state in
      mkUserState (isAuthenticated state) (user state) (preferences state)
        (if (50 <? length unshifted)%nat then pop unshifted else unshifted)
  | clearSearchHistory =>
      mkUserState (isAuthenticated state) (user state) (preferences state) []
  | deleteAccount => mkUserState false None initialPreferences []
  end.

(** The state after a run of actions, each with the clock reading at its
    dispatch. *)
Definition dispatchAll (state : UserState) (actions : list (Z * UserAction))
    : UserState :=
  foldl (λ st a, userReducer a.1 st a.2) state actions.

(** What every reachable state satisfies: a bounded history, and a flag that
    says whether a user is stored. *)
Definition userInvariant (state : UserState) : Prop :=
  (length (searchHistory state) ≤ 50)%nat
  ∧ (isAuthenticated state = true ↔ is_Some (user state)).

(** *** searchSlice.ts: the merchant filter *)

(** [array.indexOf(x)]: the first index holding [x], or -1. *)
Fixpoint indexOf (x : string) (l : list string) : Z :=
  match l with
  | [] => -1
  | y :: l' =>
      if decide (y = x) then 0
      else let i := indexOf x l' in if i =? -1 then -1 else i + 1
  end.

(** The reducer [toggleMerchant] on [state.filters.merchants]. *)
Definition toggleMerchant (payload : string) (merchants : list string)
    : list string :=
  let index := indexOf payload merchants in
  if index =? -1 then merchants ++ [payload]
  else delete (Z.to_nat index) merchants.

End Store.

(** * Properties of the subscription lifecycle *)

Module SubscriptionProps.
Import Subscription.

Lemma findOne_Some (P : ISubscription → Prop) `{!∀ s, Decision (P s)}
    (db : Collection) (i : nat) (s : ISubscription) :
  findOne P db = Some (i, s) →
  db !! i = Some s ∧ P s ∧ (i < length db)%nat.
Proof.
  unfold findOne. intros (Hi & HP & _)%list_find_Some.
  split_and!; [done..|]. by eapply lookup_lt_Some.
Qed.

Lemma findOne_None (P : ISubscription → Prop) `{!∀ s, Decision (P s)}
    (db : Collection) :
  (∀ s, s ∈ db → ¬ P s) → findOne P db = None.
Proof.
  intros Hnone. unfold findOne. apply list_find_None, Forall_forall. exact Hnone.
Qed.

Lemma isSubscriptionActive_true_iff (now : Date) (db : Collection)
    (u t : string) :
  isSubscriptionActive now db u t = true ↔
  ∃ s, s ∈ db ∧ activeFilter now u t s.
Proof.
  unfold isSubscriptionActive.
  destruct (findOne (activeFilter now u t) db) as [[i s]|] eqn:E.
  - apply findOne_Some in E as (Hi & HP & _).
    split; [intros _|done]. exists s. split; [|done].
    by eapply list_elem_of_lookup_2.
  - split; [done|]. intros (s & Hs & HP).
    unfold findOne in E. rewrite list_find_None, Forall_forall in E.
    by destruct (E s Hs).
Qed.

(** Writing a document back changes one position of the collection. *)
Lemma save_lookup (db : Collection) (i : nat) (s' : ISubscription) :
  (i < length db)%nat →
  save i s' db !! i = Some s' ∧ ∀ j, j ≠ i → save i s' db !! j = db !! j.
Proof.
  intros Hi. unfold save. split.
  - by apply list_lookup_insert_eq.
  - intros j Hj. by apply list_lookup_insert_ne.
Qed.

(** C1. [isSubscriptionActive userId type] is true exactly when the
    collection holds a subscription of that user and type whose status is
    active or trial and whose end date is strictly after the current time.
    In particular it is false when every subscription of that user and type
    has an end date that is not in the future, whatever their stored
    status, so it does not wait for the expiry sweep. *)
Theorem isSubscriptionActive_spec (now : Date) (db : Collection)
    (u t : string) :
  (isSubscriptionActive now db u t = true ↔
     ∃ s, s ∈ db ∧ userId s = u ∧ type s = t ∧
          (status s = active ∨ status s = trial) ∧ now < endDate s)
  ∧ ((∀ s, s ∈ db → userId s = u → type s = t → endDate s ≤ now) →
       isSubscriptionActive now db u t = false).
Proof.
  split.
  - rewrite isSubscriptionActive_true_iff.
    unfold activeFilter, byUserAndType, statusInActiveTrial.
    split.
    + intros (s & Hs & [Hu Ht] & Hst & Hend). by exists s.
    + intros (s & Hs & Hu & Ht & Hst & Hend). by exists s.
  - intros Hpast. apply not_true_is_false.
    rewrite isSubscriptionActive_true_iff.
    intros (s & Hs & [Hu Ht] & _ & Hend).
    specialize (Hpast s Hs Hu Ht). lia.
Qed.

Lemma isSubscriptionActive_spec_witness :
  isSubscriptionActive 100 [trialSub] "u1" "seller" = false.
Proof.
  apply (proj2 (isSubscriptionActive_spec 100 [trialSub] "u1" "seller")).
  intros s Hs _ _. apply list_elem_of_singleton in Hs. subst s. simpl. lia.
Defined.



Lemma updateSubscriptionStatus_fmap (now : Date) (db : Collection) :
  updateSubscriptionStatus now db = swept now <$> db.
Proof. reflexivity. Qed.

Lemma swept_not_expired (now later : Date) (s : ISubscription) :
  ¬ expiredFilter later (setStatus inactive s).
Proof. intros [_ [Hst|Hst]]; discriminate Hst. Qed.

Lemma swept_later (now later : Date) (s : ISubscription) :
  now ≤ later → swept later (swept now s) = swept later s.
Proof.
  intros Hle. unfold swept at 2.
  destruct (decide (expiredFilter now s)) as [[Hend Hst]|Hno]; [|done].
  unfold swept.
  destruct (decide (expiredFilter later (setStatus inactive s))) as [Hexp|_].
  { by destruct (swept_not_expired now later s). }
  destruct (decide (expiredFilter later s)) as [_|Hno]; [done|].
  destruct Hno. split; [lia|done].
Qed.

(** C7. The sweep keeps the number and order of the documents; a document
    whose end date is before now and whose status is active or trial comes
    out with status inactive and every other field as it was, and any other
    document comes out as it went in.  Running the sweep a second time at
    the same instant, or at a later one, gives what a single run at the
    time of the second gives: at the same instant the second run changes
    nothing. *)
Theorem updateSubscriptionStatus_spec (now : Date) (db : Collection) :
  length (updateSubscriptionStatus now db) = length db
  ∧ (∀ i s, db !! i = Some s →
       ∃ s', updateSubscriptionStatus now db !! i = Some s'
         ∧ (endDate s < now ∧ (status s = active ∨ status s = trial) →
              status s' = inactive
              ∧ userId s' = userId s ∧ type s' = type s
              ∧ startDate s' = startDate s ∧ endDate s' = endDate s
              ∧ isTrial s' = isTrial s ∧ trialEndDate s' = trialEndDate s
              ∧ paymentHistory s' = paymentHistory s
              ∧ autoRenew s' = autoRenew s
              ∧ lastPaymentDate s' = lastPaymentDate s
              ∧ nextPaymentDate s' = nextPaymentDate s)
         ∧ (¬ (endDate s < now ∧ (status s = active ∨ status s = trial)) →
              s' = s))
  ∧ updateSubscriptionStatus now (updateSubscriptionStatus now db)
      = updateSubscriptionStatus now db
  ∧ (∀ later, now ≤ later →
       updateSubscriptionStatus later (updateSubscriptionStatus now db)
         = updateSubscriptionStatus later db).
Proof.
  assert (Htwice : ∀ later, now ≤ later →
            updateSubscriptionStatus later (updateSubscriptionStatus now db)
              = updateSubscriptionStatus later db).
  { intros later Hle. rewrite !updateSubscriptionStatus_fmap, <- list_fmap_compose.
    apply list_fmap_ext. intros _ s _. simpl. by apply swept_later. }
  split_and!.
  - rewrite updateSubscriptionStatus_fmap. apply length_fmap.
  - intros i s Hi. exists (swept now s). split_and!.
    + rewrite updateSubscriptionStatus_fmap, list_lookup_fmap, Hi. reflexivity.
    + intros Hexp. unfold swept.
      destruct (decide (expiredFilter now s)) as [_|Hno]; [by split_and!|].
      by destruct Hno.
    + intros Hno. unfold swept.
      destruct (decide (expiredFilter now s)) as [Hexp|_]; [|done].
      by destruct Hno.
  - apply Htwice. lia.
  - exact Htwice.
Qed.

Lemma updateSubscriptionStatus_spec_witness :
  updateSubscriptionStatus 300 (updateSubscriptionStatus 200 [trialSub])
    = updateSubscriptionStatus 300 [trialSub]
  ∧ ∃ s', updateSubscriptionStatus 200 [trialSub] !! 0%nat = Some s'
      ∧ status s' = inactive.
Proof.
  destruct (updateSubscriptionStatus_spec 200 [trialSub])
    as (_ & Hdoc & _ & Hlater).
  split.
  - apply Hlater. lia.
  - destruct (Hdoc 0%nat trialSub) as (s' & Hs' & Hexp & _); [reflexivity|].
    exists s'. split; [exact Hs'|]. apply Hexp. simpl. split; [lia|by right].
Defined.

(** What [isSubscriptionActive] looks at is untouched by a cancellation. *)
Lemma activeFilter_cancelled (now : Date) (u t : string) (s : ISubscription) :
  activeFilter now u t (cancelled s) ↔ activeFilter now u t s.
Proof. reflexivity. Qed.

Lemma isSubscriptionActive_cancelled (now : Date) (db : Collection)
    (i : nat) (s : ISubscription) (u t : string) :
  db !! i = Some s →
  isSubscriptionActive now (save i (cancelled s) db) u t
    = isSubscriptionActive now db u t.
Proof.
  intros Hi. apply eq_true_iff_eq. rewrite !isSubscriptionActive_true_iff.
  unfold save. split.
  - intros (x & Hx & HP). apply list_elem_of_lookup in Hx as [j Hj].
    destruct (decide (j = i)) as [->|Hne].
    + rewrite list_lookup_insert_eq in Hj by (by eapply lookup_lt_Some).
      injection Hj as <-. exists s. split; [by eapply list_elem_of_lookup_2|].
      by apply activeFilter_cancelled.
    + rewrite list_lookup_insert_ne in Hj by done.
      exists x. split; [by eapply list_elem_of_lookup_2|done].
  - intros (x & Hx & HP). apply list_elem_of_lookup in Hx as [j Hj].
    destruct (decide (j = i)) as [->|Hne].
    + assert (x = s) as -> by congruence.
      exists (cancelled s). split; [|by apply activeFilter_cancelled].
      eapply list_elem_of_lookup_2. apply list_lookup_insert_eq.
      by eapply lookup_lt_Some.
    + exists x. split; [|done].
      eapply list_elem_of_lookup_2. by rewrite list_lookup_insert_ne.
Qed.

(** C8. When a subscription of the user and type exists, [cancelSubscription]
    succeeds and stores, in place of the document it found, one with
    [autoRenew] false and every other field as before; the other documents
    are untouched.  [isSubscriptionActive] therefore answers after the
    cancellation what it answered before it, at every instant: the
    subscription stays active until its end date has passed. *)
Theorem cancelSubscription_spec (db : Collection) (u t : string)
    (i : nat) (s : ISubscription) :
  findOne (byUserAndType u t) db = Some (i, s) →
  ∃ s' db',
    cancelSubscription db u t = (Ok s', db')
    ∧ autoRenew s' = false
    ∧ userId s' = userId s ∧ type s' = type s
    ∧ status s' = status s
    ∧ startDate s' = startDate s ∧ endDate s' = endDate s
    ∧ isTrial s' = isTrial s ∧ trialEndDate s' = trialEndDate s
    ∧ paymentHistory s' = paymentHistory s
    ∧ lastPaymentDate s' = lastPaymentDate s
    ∧ nextPaymentDate s' = nextPaymentDate s
    ∧ length db' = length db
    ∧ db' !! i = Some s'
    ∧ (∀ j, j ≠ i → db' !! j = db !! j)
    ∧ (∀ now u' t',
         isSubscriptionActive now db' u' t' = isSubscriptionActive now db u' t')
    ∧ ((status s = active ∨ status s = trial) →
       ∀ now, now < endDate s → isSubscriptionActive now db' u t = true).
Proof.
  intros Hfind. unfold cancelSubscription. rewrite Hfind.
  apply findOne_Some in Hfind as (Hi & [Hu Ht] & Hlt).
  eexists _, _. split; [reflexivity|].
  destruct (save_lookup db i (cancelled s) Hlt) as [Hsame Hother].
  split_and!; try done.
  - unfold save. by rewrite length_insert.
  - intros now u' t'. by apply isSubscriptionActive_cancelled.
  - intros Hst now Hnow. rewrite isSubscriptionActive_cancelled by done.
    apply isSubscriptionActive_true_iff. exists s.
    split; [by eapply list_elem_of_lookup_2|]. by split_and!.
Qed.

Lemma cancelSubscription_spec_witness :
  ∃ s' db',
    cancelSubscription [trialSub] "u1" "seller" = (Ok s', db')
    ∧ autoRenew s' = false ∧ status s' = trial
    ∧ isSubscriptionActive 99 db' "u1" "seller" = true.
Proof.
  destruct (cancelSubscription_spec [trialSub] "u1" "seller" 0%nat trialSub)
    as (s' & db' & Hrun & Hauto & _ & _ & Hst & _ & _ & _ & _ & _ & _ & _
        & _ & _ & _ & _ & Hactive).
  - reflexivity.
  - exists s', db'. split_and!; [exact Hrun|exact Hauto|exact Hst|].
    apply Hactive; [by right|]. simpl. lia.
Defined.

Lemma truthy_negative (q : Q) : (q < 0)%Q → truthy (JsNumber q) = true.
Proof.
  intros Hneg. simpl. apply negb_true_iff, not_true_is_false.
  intros Hz%Qeq_bool_iff. rewrite Hz in Hneg. by apply Qlt_irrefl in Hneg.
Qed.

Lemma truthy_nonzero (q : Q) : ¬ (q == 0)%Q → truthy (JsNumber q) = true.
Proof.
  intros Hnz. simpl. apply negb_true_iff, not_true_is_false.
  by intros Hz%Qeq_bool_iff.
Qed.

Lemma truthy_nonempty (x : string) : x ≠ "" → truthy (JsString x) = true.
Proof. intros Hx. simpl. by rewrite bool_decide_eq_false_2. Qed.

Lemma notString_nonempty (x : string) : x ≠ "" → notString (Some x) = false.
Proof. intros Hx. simpl. by apply bool_decide_eq_false. Qed.

(** Past its guard the handler hands a typed body to the service. *)
Lemma renewHandler_forwards (addMonths : Date → Z → Date)
    (renewUntyped : Date → Collection → string → RenewBody
                    → Response * Collection)
    (now : Date) (db : Collection) (reqUserId t : string) (q : Q)
    (x : string) :
  truthy (JsString t) = true → truthy (JsNumber q) = true →
  truthy (JsString x) = true →
  renewHandler addMonths renewUntyped now db reqUserId
    (mkRenewBody (JsString t) (JsNumber q) (JsString x))
    = match renewSubscription addMonths now db reqUserId t q x with
      | (Ok subscription, db') =>
          (mkResponse 200 (JsonSubscription subscription), db')
      | (Throw _, db') =>
          (mkResponse 500 (JsonError "Failed to renew subscription"), db')
      end.
Proof.
  intros Ht Hq Hx. unfold renewHandler.
  cbn [body_type body_amount body_transactionId].
  rewrite Ht, Hq, Hx. reflexivity.
Qed.

(** A renewal of an existing subscription with a negative amount is carried
    out, by the service and by the route alike: it is not refused, and the
    subscription does not stay as it was. *)
Lemma renewal_negative_amount_accepted :
  renewSubscription thirtyDayMonths 50 [trialSub] "u1" "seller" (-5) "tx-1"
    = (Ok paidSub, [paidSub])
  ∧ renewHandler thirtyDayMonths untypedFails 50 [trialSub] "u1"
      (mkRenewBody (JsString "seller") (JsNumber (-5)) (JsString "tx-1"))
    = (mkResponse 200 (JsonSubscription paidSub), [paidSub])
  ∧ status paidSub = active
  ∧ paymentHistory paidSub = [mkPayment (-5) 50 "tx-1" success]
  ∧ paidSub ≠ trialSub.
Proof. split_and!; [reflexivity..|discriminate]. Qed.

(** C3, as the code has it.  POST /renew answers 400 "Missing required
    fields" and leaves the collection as it was when the amount is the
    number 0 or the transaction id is the empty string.  A negative amount
    is not refused: with a non-empty type and transaction id and an
    existing subscription the route answers 200, the stored document
    becomes active and its payment history gains the entry with that
    amount.  Nor does the guard refuse an amount that comes as a non-empty
    string, "0" included: such a request goes on to the service. *)
Theorem renewHandler_validation (addMonths : Date → Z → Date)
    (renewUntyped : Date → Collection → string → RenewBody
                    → Response * Collection)
    (now : Date) (db : Collection) (reqUserId : string) (t a x : JsValue) :
  ((∃ q, a = JsNumber q ∧ (q == 0)%Q) ∨ x = JsString "" →
     renewHandler addMonths renewUntyped now db reqUserId (mkRenewBody t a x)
       = (mkResponse 400 (JsonError "Missing required fields"), db))
  ∧ (∀ t0 q x0 i s,
       t = JsString t0 → a = JsNumber q → x = JsString x0 →
       t0 ≠ "" → (q < 0)%Q → x0 ≠ "" →
       findOne (byUserAndType reqUserId t0) db = Some (i, s) →
       ∃ s' db',
         renewHandler addMonths renewUntyped now db reqUserId
           (mkRenewBody t a x)
           = (mkResponse 200 (JsonSubscription s'), db')
         ∧ status s' = active
         ∧ paymentHistory s' = paymentHistory s ++ [mkPayment q now x0 success]
         ∧ db' !! i = Some s')
  ∧ (∀ a0, a = JsString a0 → a0 ≠ "" →
       truthy t = true → truthy x = true →
       renewHandler addMonths renewUntyped now db reqUserId (mkRenewBody t a x)
         = renewUntyped now db reqUserId (mkRenewBody t a x)).
Proof.
  split_and!.
  - intros Hbad. unfold renewHandler.
    cbn [body_type body_amount body_transactionId].
    assert (negb (truthy a) || negb (truthy x) = true) as Hguard.
    { destruct Hbad as [(q & -> & Hz)| ->].
      - simpl. apply Qeq_bool_iff in Hz. by rewrite Hz.
      - simpl. by rewrite orb_true_r. }
    apply orb_true_iff in Hguard as [Ha|Hx].
    + by rewrite Ha, orb_true_r.
    + by rewrite Hx, orb_true_r.
  - intros t0 q x0 i s -> -> -> Ht Hq Hx Hfind.
    rewrite renewHandler_forwards
      by auto using truthy_nonempty, truthy_negative.
    unfold renewSubscription. rewrite Hfind.
    apply findOne_Some in Hfind as (Hi & _ & Hlt).
    eexists _, _. split; [reflexivity|]. split_and!; [done..|].
    by apply save_lookup.
  - intros a0 -> Ha Ht Hx. unfold renewHandler.
    cbn [body_type body_amount body_transactionId].
    rewrite Ht, Hx, (truthy_nonempty a0 Ha). cbn [negb orb].
    by destruct t.
Qed.

Lemma renewHandler_validation_witness :
  renewHandler thirtyDayMonths untypedFails 50 [trialSub] "u1"
    (mkRenewBody (JsString "seller") (JsNumber 0) (JsString "tx-1"))
    = (mkResponse 400 (JsonError "Missing required fields"), [trialSub])
  ∧ (∃ s' db',
       renewHandler thirtyDayMonths untypedFails 50 [trialSub] "u1"
         (mkRenewBody (JsString "seller") (JsNumber (-5)) (JsString "tx-1"))
         = (mkResponse 200 (JsonSubscription s'), db')
       ∧ status s' = active)
  ∧ renewHandler thirtyDayMonths untypedFails 50 [trialSub] "u1"
      (mkRenewBody (JsString "seller") (JsString "0") (JsString "tx-1"))
    = untypedFails 50 [trialSub] "u1"
        (mkRenewBody (JsString "seller") (JsString "0") (JsString "tx-1")).
Proof.
  destruct (renewHandler_validation thirtyDayMonths untypedFails 50 [trialSub]
              "u1" (JsString "seller") (JsNumber 0) (JsString "tx-1"))
    as (Hzero & _ & _).
  destruct (renewHandler_validation thirtyDayMonths untypedFails 50 [trialSub]
              "u1" (JsString "seller") (JsNumber (-5)) (JsString "tx-1"))
    as (_ & Hneg & _).
  destruct (renewHandler_validation thirtyDayMonths untypedFails 50 [trialSub]
              "u1" (JsString "seller") (JsString "0") (JsString "tx-1"))
    as (_ & _ & Hstr).
  split_and!.
  - apply Hzero. left. exists 0%Q. split; reflexivity.
  - destruct (Hneg "seller" (-5)%Q "tx-1" 0%nat trialSub)
      as (s' & db' & Hrun & Hst & _); try reflexivity; try discriminate.
    exists s', db'. by split.
  - apply (Hstr "0"); [reflexivity|discriminate|reflexivity|reflexivity].
Defined.

End SubscriptionProps.

(** * Properties of the geo-distance and routing utilities *)

Module GeolocationProps.
Import Geolocation.

(** *** Delivery cost *)

Section DeliveryProps.
Local Open Scope Q_scope.

(** The integer part is the one integer within one below. *)
Lemma Qfloor_unique (x : Q) (n : Z) :
  inject_Z n <= x → x < inject_Z (n + 1) → Qfloor x = n.
Proof.
  intros Hlo Hhi.
  assert (n ≤ Qfloor x)%Z as H1.
  { rewrite <- (Qfloor_Z n). by apply Qfloor_resp_le. }
  assert (Qfloor x < n + 1)%Z as H2.
  { rewrite Zlt_Qlt. eapply Qle_lt_trans; [apply Qfloor_le|done]. }
  lia.
Qed.

(** [Math.round x] is within a half of [x], a tie going up. *)
Lemma Math_round_nearest (x : Q) :
  Math_round x - (1 # 2) <= x ∧ x < Math_round x + (1 # 2).
Proof.
  unfold Math_round.
  pose proof (Qfloor_le (x + (1 # 2))) as Hlo.
  pose proof (Qlt_floor (x + (1 # 2))) as Hhi.
  rewrite inject_Z_plus in Hhi. change (inject_Z 1) with 1 in Hhi.
  split; lra.
Qed.

(** Rounding commutes with adding an integer. *)
Lemma Math_round_plus_int (z : Z) (x : Q) :
  Math_round (inject_Z z + x) == inject_Z z + Math_round x.
Proof.
  unfold Math_round. rewrite <- inject_Z_plus.
  apply inject_Z_injective, Qfloor_unique.
  - rewrite inject_Z_plus.
    pose proof (Qfloor_le (x + (1 # 2))). lra.
  - rewrite !inject_Z_plus. change (inject_Z 1) with 1.
    pose proof (Qlt_floor (x + (1 # 2))) as Hhi.
    rewrite inject_Z_plus in Hhi. change (inject_Z 1) with 1 in Hhi. lra.
Qed.

Lemma Math_round_nonneg (x : Q) : 0 <= x → 0 <= Math_round x.
Proof.
  intros Hx. unfold Math_round. change 0 with (inject_Z 0).
  rewrite <- Zle_Qle, <- (Qfloor_Z 0). apply Qfloor_resp_le.
  change (inject_Z 0) with 0. lra.
Qed.

(** C6, as the code has it.  For non-negative distance and free radius and
    the default base cost of 50: within the free radius the cost is 0;
    beyond it the cost is 50 plus [Math.round] of five times the excess,
    which is at least 50; the cost is never negative.  In exact arithmetic,
    which is what this theorem computes in, that is 50 + 5 * (distance -
    radius) rounded to the nearest integer (a tie going up); the code
    rounds the product to a double before [Math.round], and can answer the
    neighbouring integer.  [calculateDeliveryCost 3 5] is 0 and
    [calculateDeliveryCost 10 5] is 75. *)
Theorem calculateDeliveryCost_spec :
  (∀ distance freeRadius : Q,
     0 <= distance → 0 <= freeRadius →
     (distance <= freeRadius →
        calculateDeliveryCost distance freeRadius defaultBaseDeliveryCost = 0)
     ∧ (freeRadius < distance →
          calculateDeliveryCost distance freeRadius defaultBaseDeliveryCost
            == 50 + Math_round ((distance - freeRadius) * 5)
          ∧ 50 <= calculateDeliveryCost distance freeRadius
                    defaultBaseDeliveryCost
          ∧ calculateDeliveryCost distance freeRadius defaultBaseDeliveryCost
              == Math_round (50 + 5 * (distance - freeRadius))
          ∧ ∃ n : Z,
              calculateDeliveryCost distance freeRadius defaultBaseDeliveryCost
                == inject_Z n
              ∧ inject_Z n - (1 # 2) <= 50 + 5 * (distance - freeRadius)
              ∧ 50 + 5 * (distance - freeRadius) < inject_Z n + (1 # 2))
     ∧ 0 <= calculateDeliveryCost distance freeRadius defaultBaseDeliveryCost)
  ∧ calculateDeliveryCost 3 5 defaultBaseDeliveryCost == 0
  ∧ calculateDeliveryCost 10 5 defaultBaseDeliveryCost == 75.
Proof.
  split; [|split; reflexivity].
  intros distance freeRadius Hd Hf.
  assert (Hfar : freeRadius < distance →
            calculateDeliveryCost distance freeRadius defaultBaseDeliveryCost
              == Math_round (50 + 5 * (distance - freeRadius))).
  { intros Hlt. unfold calculateDeliveryCost, defaultBaseDeliveryCost.
    destruct (Qle_bool distance freeRadius) eqn:Hle.
    { apply Qle_bool_iff in Hle. lra. }
    change 50 with (inject_Z 50). rewrite Math_round_plus_int.
    apply Qplus_comp; [reflexivity|].
    unfold Math_round.
    assert ((distance - freeRadius) * 5 + (1 # 2)
              == 5 * (distance - freeRadius) + (1 # 2)) as -> by ring.
    reflexivity. }
  split_and!.
  - intros Hle. unfold calculateDeliveryCost.
    apply Qle_bool_iff in Hle. by rewrite Hle.
  - intros Hlt.
    assert (calculateDeliveryCost distance freeRadius defaultBaseDeliveryCost
              == 50 + Math_round ((distance - freeRadius) * 5)) as Hcode.
    { unfold calculateDeliveryCost, defaultBaseDeliveryCost.
      destruct (Qle_bool distance freeRadius) eqn:Hle; [|reflexivity].
      apply Qle_bool_iff in Hle. lra. }
    split; [exact Hcode|]. split.
    { rewrite Hcode.
      pose proof (Math_round_nonneg ((distance - freeRadius) * 5)) as Hr.
      assert (0 <= (distance - freeRadius) * 5) as Hs by lra.
      specialize (Hr Hs). lra. }
    split; [by apply Hfar|].
    exists (Qfloor (50 + 5 * (distance - freeRadius) + (1 # 2))).
    split; [by apply Hfar|].
    apply (Math_round_nearest (50 + 5 * (distance - freeRadius))).
  - unfold calculateDeliveryCost, defaultBaseDeliveryCost.
    destruct (Qle_bool distance freeRadius) eqn:Hle; [lra|].
    assert (¬ distance <= freeRadius) as Hgt.
    { intros H%Qle_bool_iff. congruence. }
    pose proof (Math_round_nonneg ((distance - freeRadius) * 5)) as Hr.
    assert (0 <= (distance - freeRadius) * 5) as Hs by lra.
    specialize (Hr Hs). lra.
Qed.

Lemma calculateDeliveryCost_spec_witness :
  calculateDeliveryCost 3 5 defaultBaseDeliveryCost = 0
  ∧ 0 <= calculateDeliveryCost (101 # 10) 5 defaultBaseDeliveryCost
  ∧ calculateDeliveryCost (101 # 10) 5 defaultBaseDeliveryCost
      == Math_round (50 + 5 * ((101 # 10) - 5)).
Proof.
  destruct calculateDeliveryCost_spec as [Hall _].
  destruct (Hall 3 5) as (Hin & _ & _); [discriminate..|].
  destruct (Hall (101 # 10) 5) as (_ & Hout & Hpos); [discriminate..|].
  destruct Hout as (_ & _ & Hround & _); [reflexivity|].
  split_and!.
  - apply Hin. discriminate.
  - exact Hpos.
  - exact Hround.
Defined.

End DeliveryProps.

(** *** Haversine distance *)

Section DistanceProps.
Local Open Scope R_scope.

Lemma toRad_opp (x y : R) : toRad (x - y) / 2 = - (toRad (y - x) / 2).
Proof. unfold toRad. lra. Qed.

(** The haversine term is even in both differences. *)
Lemma haversine_sym (lat1 lon1 lat2 lon2 : R) :
  sin (toRad (lat2 - lat1) / 2) * sin (toRad (lat2 - lat1) / 2) +
    cos (toRad lat1) * cos (toRad lat2) *
      sin (toRad (lon2 - lon1) / 2) * sin (toRad (lon2 - lon1) / 2)
  = sin (toRad (lat1 - lat2) / 2) * sin (toRad (lat1 - lat2) / 2) +
    cos (toRad lat2) * cos (toRad lat1) *
      sin (toRad (lon1 - lon2) / 2) * sin (toRad (lon1 - lon2) / 2).
Proof.
  rewrite (toRad_opp lat1 lat2), (toRad_opp lon1 lon2), !sin_neg. ring.
Qed.

Lemma calculateDistance_sym (lat1 lon1 lat2 lon2 : R) :
  calculateDistance lat1 lon1 lat2 lon2 = calculateDistance lat2 lon2 lat1 lon1.
Proof.
  unfold calculateDistance. cbv zeta.
  by rewrite (haversine_sym lat1 lon1 lat2 lon2).
Qed.

Lemma atan2_0_1 : atan2 0 1 = 0.
Proof.
  unfold atan2. destruct (Rlt_dec 0 1) as [_|Hno]; [|lra].
  replace (0 / 1) with 0 by lra. apply atan_0.
Qed.

Lemma calculateDistance_self (lat lon : R) :
  calculateDistance lat lon lat lon = 0.
Proof.
  unfold calculateDistance. cbv zeta.
  replace (toRad (lat - lat) / 2) with 0 by (unfold toRad; lra).
  replace (toRad (lon - lon) / 2) with 0 by (unfold toRad; lra).
  rewrite sin_0.
  replace (0 * 0 + cos (toRad lat) * cos (toRad lat) * 0 * 0) with 0 by ring.
  rewrite Rminus_0_r, sqrt_0, sqrt_1, atan2_0_1. ring.
Qed.



(** A latitude of 91 degrees is out of range, and both utilities return on
    it: no validation error is raised. *)
Lemma out_of_range_latitude_accepted :
  ¬ validLatitude 91
  ∧ calculateDistance_call 91 0 91 0 = Ok 0
  ∧ isWithinRadius_call 91 0 91 0 1 = Ok true.
Proof.
  split_and!.
  - unfold validLatitude. lra.
  - unfold calculateDistance_call. by rewrite calculateDistance_self.
  - unfold isWithinRadius_call, isWithinRadius.
    rewrite calculateDistance_self.
    destruct (Rle_dec 0 1) as [_|Hno]; [done|lra].
Qed.

(** C9, as the code has it.  [calculateDistance] and [isWithinRadius] do
    not check the range of their arguments: every call returns a value.  At
    any latitude and longitude, in range or not, the distance from a point
    to itself is 0, and the point is within every non-negative radius of
    itself.  On the empty list [calculateOptimalRoute] returns the empty
    list and [calculateRouteDistance] returns 0. *)
Theorem geo_utilities_total :
  (∀ lat1 lon1 lat2 lon2,
     calculateDistance_call lat1 lon1 lat2 lon2
       = Ok (calculateDistance lat1 lon1 lat2 lon2))
  ∧ (∀ lat1 lon1 lat2 lon2 radius,
       isWithinRadius_call lat1 lon1 lat2 lon2 radius
         = Ok (isWithinRadius lat1 lon1 lat2 lon2 radius)
       ∧ (isWithinRadius lat1 lon1 lat2 lon2 radius = true
            ↔ calculateDistance lat1 lon1 lat2 lon2 <= radius))
  ∧ (∀ lat lon, calculateDistance_call lat lon lat lon = Ok 0)
  ∧ (∀ lat lon radius,
       0 <= radius → isWithinRadius_call lat lon lat lon radius = Ok true)
  ∧ calculateOptimalRoute [] = Some []
  ∧ calculateRouteDistance [] = 0.
Proof.
  split_and!; try reflexivity.
  - intros lat1 lon1 lat2 lon2 radius. split; [reflexivity|].
    unfold isWithinRadius.
    by destruct (Rle_dec (calculateDistance lat1 lon1 lat2 lon2) radius).
  - intros lat lon. unfold calculateDistance_call.
    by rewrite calculateDistance_self.
  - intros lat lon radius Hr. unfold isWithinRadius_call, isWithinRadius.
    rewrite calculateDistance_self.
    by destruct (Rle_dec 0 radius).
Qed.

Lemma geo_utilities_total_witness :
  isWithinRadius_call 91 200 91 200 1 = Ok true.
Proof.
  destruct geo_utilities_total as (_ & _ & _ & Hself & _).
  apply Hself. lra.
Defined.

End DistanceProps.

(** *** Route ordering *)

Section NearestNeighbourProps.
Context {P D : Type}.
Variable distance : P → P → D.
Variable lt : D → D → bool.

(** The scan hands back the index it was entered with, or one it visited. *)
Lemma scanNearest_range (current : P) (rest : list P) (i nearestIndex : nat)
    (minDistance : option D) :
  let k := scanNearest distance lt current rest i nearestIndex minDistance in
  k = nearestIndex ∨ (i ≤ k < i + length rest)%nat.
Proof.
  revert i nearestIndex minDistance.
  induction rest as [|p rest IH]; intros i nearestIndex minDistance; simpl.
  - by left.
  - destruct (belowMin lt (distance current p) minDistance).
    + destruct (IH (S i) i (Some (distance current p))) as [->|Hk];
        right; lia.
    + destruct (IH (S i) nearestIndex minDistance) as [->|Hk];
        [by left|right; lia].
Qed.

Lemma findNearestIndex_lt (current : P) (unvisited : list P) :
  unvisited ≠ [] →
  (findNearestIndex distance lt current unvisited < length unvisited)%nat.
Proof.
  intros Hne. unfold findNearestIndex.
  destruct (scanNearest_range current unvisited 0 0 None) as [->|Hk]; [|lia].
  destruct unvisited; [done|simpl; lia].
Qed.

(** The loop ends within as many rounds as there are points to visit, and
    hands back the route it was given followed by a rearrangement of them. *)
Lemma visitLoop_total (fuel : nat) (current : P) (unvisited route : list P) :
  (length unvisited ≤ fuel)%nat →
  ∃ r, visitLoop distance lt fuel current unvisited route = Some r
       ∧ r ≡ₚ route ++ unvisited.
Proof.
  revert current unvisited route.
  induction fuel as [|fuel IH]; intros current unvisited route Hfuel.
  - destruct unvisited; [|simpl in Hfuel; lia].
    exists route. by rewrite app_nil_r.
  - destruct unvisited as [|p unvisited'] eqn:Hu.
    { exists route. by rewrite app_nil_r. }
    rewrite <- Hu in *. assert (unvisited ≠ []) as Hne by (by subst).
    pose proof (findNearestIndex_lt current unvisited Hne) as Hk.
    destruct (lookup_lt_is_Some_2 unvisited _ Hk) as [nearest Hnearest].
    destruct (IH nearest
                (delete (findNearestIndex distance lt current unvisited) unvisited)
                (route ++ [nearest])) as (r & Hr & Hperm).
    { rewrite length_delete by eauto. lia. }
    exists r. split.
    + rewrite Hu in *. simpl. simpl in Hnearest. rewrite Hnearest. exact Hr.
    + rewrite Hperm, <- app_assoc. simpl.
      apply Permutation_app_head. symmetry. by apply delete_Permutation.
Qed.

(** Past this point the comparison is taken to order the distances: it is
    transitive, and whatever is below [b] is below everything [b] is not
    above. *)
Hypothesis lt_trans : ∀ a b c, lt a b = true → lt b c = true → lt a c = true.
Hypothesis lt_le_trans :
  ∀ a b c, lt a b = true → lt c b = false → lt a c = true.

Lemma scanNearest_scanned (current : P) (rest pre : list P)
    (nearestIndex : nat) (minDistance : option D) :
  scanned distance lt current pre nearestIndex minDistance →
  pre ++ rest ≠ [] →
  ∃ m, scanned distance lt current (pre ++ rest)
         (scanNearest distance lt current rest (length pre) nearestIndex
            minDistance) (Some m).
Proof.
  revert pre nearestIndex minDistance.
  induction rest as [|p rest IH]; intros pre nearestIndex minDistance Hinv Hne.
  - rewrite app_nil_r in *. simpl.
    destruct minDistance as [m|]; [by exists m|]. by destruct Hne.
  - simpl.
    replace (pre ++ p :: rest) with ((pre ++ [p]) ++ rest)
      by (by rewrite <- app_assoc).
    replace (S (length pre)) with (length (pre ++ [p]))
      by (rewrite length_app; simpl; lia).
    destruct (belowMin lt (distance current p) minDistance) eqn:Hbelow.
    + apply IH; [|by destruct pre].
      exists p. split_and!.
      * by rewrite lookup_app_r, Nat.sub_diag.
      * done.
      * intros j q Hj. split; [|intros Hgt].
        2:{ apply lookup_lt_Some in Hj. rewrite length_app in Hj.
            simpl in Hj. lia. }
        intros Hlt. rewrite lookup_app_l in Hj by done.
        destruct minDistance as [m|]; simpl in Hinv, Hbelow.
        2:{ subst pre. simpl in Hlt. lia. }
        destruct Hinv as (p0 & Hp0 & -> & Hall).
        destruct (Hall j q Hj) as [Hbefore Hafter].
        destruct (lt_eq_lt_dec j nearestIndex) as [[Hc|Hc]|Hc].
        -- eapply lt_trans; [exact Hbelow|by apply Hbefore].
        -- subst j. by assert (q = p0) as -> by congruence.
        -- eapply lt_le_trans; [exact Hbelow|by apply Hafter].
    + destruct minDistance as [m|]; [|done]. simpl in Hbelow.
      destruct Hinv as (p0 & Hp0 & -> & Hall).
      apply IH; [|by destruct pre].
      exists p0. split_and!.
      * by apply lookup_app_l_Some.
      * done.
      * intros j q Hj. apply lookup_app_Some in Hj as [Hj|[Hlen Hj]].
        -- by apply Hall.
        -- apply list_lookup_singleton_Some in Hj as [Hj ->].
           split; [|done]. intros Hlt. apply lookup_lt_Some in Hp0. lia.
Qed.

(** The index the scan picks splits [unvisited] as the specification has
    it. *)
Lemma findNearestIndex_split (current : P) (unvisited : list P) :
  unvisited ≠ [] →
  ∃ before nearest after,
    unvisited = before ++ nearest :: after
    ∧ length before = findNearestIndex distance lt current unvisited
    ∧ (∀ q, q ∈ before →
         lt (distance current nearest) (distance current q) = true)
    ∧ (∀ q, q ∈ after →
         lt (distance current q) (distance current nearest) = false).
Proof.
  intros Hne. unfold findNearestIndex.
  destruct (scanNearest_scanned current unvisited [] 0 None)
    as (m & p & Hp & -> & Hall); [done|done|].
  simpl in *.
  set (k := scanNearest distance lt current unvisited 0 0 None) in *.
  exists (take k unvisited), p, (drop (S k) unvisited).
  pose proof (lookup_lt_Some _ _ _ Hp) as Hk.
  split_and!.
  - by rewrite <- (take_drop_middle unvisited k p Hp) at 1.
  - rewrite length_take. lia.
  - intros q Hq. apply list_elem_of_lookup in Hq as [j Hj].
    pose proof (lookup_lt_Some _ _ _ Hj) as Hjk. rewrite length_take in Hjk.
    rewrite lookup_take_lt in Hj by lia.
    apply (Hall j q Hj). lia.
  - intros q Hq. apply list_elem_of_lookup in Hq as [j Hj].
    rewrite lookup_drop in Hj.
    apply (Hall _ q Hj). lia.
Qed.

(** Each stop of the loop is the nearest remaining point, the first of them
    in input order when several are equally near. *)
Lemma visitLoop_nearest (fuel : nat) (current : P) (unvisited route r : list P) :
  visitLoop distance lt fuel current unvisited route = Some r →
  ∃ stops, r = route ++ stops
           ∧ NearestFirst distance (λ a b, lt a b = true) current unvisited
               stops.
Proof.
  revert current unvisited route.
  induction fuel as [|fuel IH]; intros current unvisited route Hrun.
  - destruct unvisited; [|done]. injection Hrun as <-.
    exists []. rewrite app_nil_r. split; [done|constructor].
  - destruct unvisited as [|p0 unvisited'] eqn:Hu.
    { injection Hrun as <-. exists []. rewrite app_nil_r.
      split; [done|constructor]. }
    rewrite <- Hu in *. assert (unvisited ≠ []) as Hne by (by subst).
    destruct (findNearestIndex_split current unvisited Hne)
      as (before & nearest & after & Hsplit & Hlen & Hbefore & Hafter).
    assert (visitLoop distance lt (S fuel) current unvisited route
            = visitLoop distance lt fuel nearest (before ++ after)
                (route ++ [nearest])) as Hstep.
    { rewrite Hu. cbn [visitLoop]. rewrite <- Hu, <- Hlen.
      rewrite Hsplit.
      rewrite list_lookup_middle by done.
      rewrite delete_middle. reflexivity. }
    rewrite Hu, <- Hu, Hstep in Hrun.
    destruct (IH _ _ _ Hrun) as (stops & -> & Hstops).
    exists (nearest :: stops). split.
    + by rewrite <- app_assoc.
    + rewrite Hsplit. constructor; [done| |done].
      intros q Hq. by rewrite (Hafter q Hq).
Qed.

End NearestNeighbourProps.

(** The whole ordering, for a comparison that orders the distances. *)
Lemma optimalRoute_correct {P D : Type} (distance : P → P → D)
    (lt : D → D → bool) (points : list P) :
  (∀ a b c, lt a b = true → lt b c = true → lt a c = true) →
  (∀ a b c, lt a b = true → lt c b = false → lt a c = true) →
  ∃ route,
    optimalRoute distance lt points = Some route
    ∧ route ≡ₚ points
    ∧ ((length points ≤ 2)%nat → route = points)
    ∧ ((2 < length points)%nat →
         ∃ first rest stops,
           points = first :: rest ∧ route = first :: stops
           ∧ NearestFirst distance (λ a b, lt a b = true) first rest stops).
Proof.
  intros Htrans Hle. unfold optimalRoute.
  destruct (length points <=? 2)%nat eqn:Hlen.
  - apply Nat.leb_le in Hlen. exists points. split_and!; [done..|intros ?; lia].
  - apply Nat.leb_gt in Hlen.
    destruct points as [|current unvisited]; [simpl in Hlen; lia|].
    destruct (visitLoop_total distance lt (length unvisited) current unvisited
                [current]) as (route & Hrun & Hperm); [done|].
    exists route. split_and!; [done|done|simpl in *; intros ?; lia|].
    intros _.
    destruct (visitLoop_nearest distance lt Htrans Hle _ _ _ _ _ Hrun)
      as (stops & -> & Hstops).
    by exists current, unvisited, stops.
Qed.

Lemma NearestFirst_impl {P D : Type} (distance : P → P → D)
    (closer closer' : D → D → Prop) (current : P) (unvisited stops : list P) :
  (∀ a b, closer a b ↔ closer' a b) →
  NearestFirst distance closer current unvisited stops →
  NearestFirst distance closer' current unvisited stops.
Proof.
  intros Hiff. induction 1 as [|current before nearest after route Hb Ha _ IH].
  - constructor.
  - constructor; [|intros q Hq Hc|done].
    + intros q Hq. by apply Hiff, Hb.
    + by apply (Ha q Hq), Hiff.
Qed.

Lemma Rltb_true (x y : R) : Rltb x y = true ↔ (x < y)%R.
Proof. unfold Rltb. by destruct (Rlt_dec x y). Qed.

Lemma Rltb_false (x y : R) : Rltb x y = false ↔ (y <= x)%R.
Proof.
  unfold Rltb. destruct (Rlt_dec x y) as [Hlt|Hge].
  - split; [done|]. intros Hle. exfalso. lra.
  - split; [|done]. intros _. lra.
Qed.



(** What [NearestFirst] says of a first stop, read on the reals: it is one
    of the points to visit, and none of them is nearer. *)
Lemma NearestFirst_head (current stop : Point) (unvisited stops : list Point) :
  NearestFirst pointDistance Rlt current unvisited (stop :: stops) →
  stop ∈ unvisited
  ∧ ∀ q, q ∈ unvisited →
      (pointDistance current stop <= pointDistance current q)%R.
Proof.
  inversion 1 as [|c before nearest after route Hb Ha Hrest]; subst.
  split.
  - apply elem_of_app. right. by left.
  - intros q Hq. apply elem_of_app in Hq as [Hq|Hq].
    + left. by apply Hb.
    + apply elem_of_cons in Hq as [->|Hq]; [right; done|].
      apply Rnot_lt_le. by apply Ha.
Qed.

(** The loop run on points of a line, with the distance [|a - b|]: from 0
    the stops are taken in increasing order; from 5 the points 8 and 2 are
    equally near and 8, the earlier in the input, is visited first. *)
Example optimalRoute_line :
  optimalRoute lineDistance Z.ltb [0; 10; 3; 7; 3; 1] = Some [0; 1; 3; 3; 7; 10].
Proof. reflexivity. Qed.

Example optimalRoute_tie :
  optimalRoute lineDistance Z.ltb [5; 8; 2; 6] = Some [5; 6; 8; 2]
  ∧ optimalRoute lineDistance Z.ltb [5; 8; 2] = Some [5; 8; 2]
  ∧ optimalRoute lineDistance Z.ltb [5; 2; 8] = Some [5; 2; 8].
Proof. split_and!; reflexivity. Qed.

End GeolocationProps.

(** * The numeric functions in binary64: where rounding shows *)

Module DoublesProps.
Import PrimFloat.

(** The double 0.8999999999999999 is 2026619832316723 / 2^51.  With it as
    distance and no free radius, five times the distance is just below
    4.5, so that 50 + 5 * distance rounds to 54; the code rounds the product
    to the double 4.5 first and answers 55. *)
Lemma calculateDeliveryCost_rounds_product :
  (0.8999999999999999 * 2251799813685248 =? 2026619832316723)%float = true
  ∧ ((0.8999999999999999 - 0) * 5 =? 4.5)%float = true
  ∧ Doubles.calculateDeliveryCost 0.8999999999999999 0 50 = 55%float
  ∧ (54 - (1 # 2) <= 50 + 5 * ((2026619832316723 # 2251799813685248) - 0))%Q
  ∧ (50 + 5 * ((2026619832316723 # 2251799813685248) - 0) < 54 + (1 # 2))%Q
  ∧ (Geolocation.calculateDeliveryCost
       (2026619832316723 # 2251799813685248) 0
       Geolocation.defaultBaseDeliveryCost == 54)%Q.
Proof.
  split_and!; [vm_compute; reflexivity..| | |].
  - discriminate.
  - reflexivity.
  - reflexivity.
Qed.

(** The two amounts the specification names come out the same in doubles. *)
Example calculateDeliveryCost_double_examples :
  Doubles.calculateDeliveryCost 3 5 50 = 0%float
  ∧ Doubles.calculateDeliveryCost 10 5 50 = 75%float.
Proof. split; vm_compute; reflexivity. Qed.


End DoublesProps.

(** * Properties of the seller ratings *)

Module LocalSellerProps.
Import LocalSeller.
Local Open Scope Q_scope.

Lemma sumRatings_app (rs : list Review) (r : Review) :
  sumRatings (rs ++ [r]) == sumRatings rs + rating r.
Proof.
  induction rs as [|x rs IH]; simpl.
  - ring.
  - rewrite IH. ring.
Qed.

Lemma ofCount_succ (n : nat) : ofCount (n + 1) == ofCount n + 1.
Proof.
  unfold ofCount. rewrite Nat2Z.inj_add, inject_Z_plus. reflexivity.
Qed.

Lemma ofCount_nonneg (n : nat) : 0 <= ofCount n.
Proof.
  unfold ofCount. change 0 with (inject_Z 0). rewrite <- Zle_Qle. lia.
Qed.

(** One more rating keeps the running average a mean. *)
Lemma reviewed_average_is_mean (now : Date) (userId : string) (r : Q)
    (comment : option string) (seller : ILocalSeller) :
  countIsLength (ratings seller) →
  averageIsMean (ratings seller) →
  average (ratings (reviewed now userId r comment seller))
    == meanRating (reviews (ratings (reviewed now userId r comment seller))).
Proof.
  intros Hcount Hmean. unfold countIsLength in Hcount.
  unfold averageIsMean in Hmean.
  unfold reviewed, meanRating. cbn [ratings average reviews].
  rewrite sumRatings_app, length_app. cbn [rating length].
  rewrite ofCount_succ, Hcount.
  pose proof (ofCount_nonneg (length (reviews (ratings seller)))) as Hn.
  destruct (reviews (ratings seller)) as [|x rs] eqn:Hrs.
  - cbn [sumRatings foldr length].
    change (ofCount 0) with 0. field.
  - rewrite Hmean by done. unfold meanRating.
    assert (0 < ofCount (length (x :: rs))) as Hpos.
    { unfold ofCount. change 0 with (inject_Z 0). rewrite <- Zlt_Qlt.
      simpl. lia. }
    field. split; lra.
Qed.

Lemma validRating_true (r : Q) : validRating r = true ↔ 1 <= r <= 5.
Proof.
  unfold validRating. rewrite andb_true_iff, !Qle_bool_iff. done.
Qed.

(** On a document whose stored reviews pass, the validation at save is the
    check of the new rating. *)
Lemma validate_reviewed (now : Date) (userId : string) (r : Q)
    (comment : option string) (seller : ILocalSeller) :
  (∀ old, old ∈ reviews (ratings seller) → 1 <= rating old <= 5) →
  validate (reviewed now userId r comment seller) = validRating r.
Proof.
  intros Hold. unfold validate, reviewed. cbn [ratings reviews].
  rewrite forallb_app. cbn [forallb rating]. rewrite andb_true_r.
  assert (forallb (λ review, validRating (rating review))
            (reviews (ratings seller)) = true) as ->; [|done].
  apply forallb_forall. intros old Hin%list_elem_of_In.
  by apply validRating_true, Hold.
Qed.

(** C10, as the code has it.  On an existing seller whose stored reviews
    have ratings from 1 to 5 and whose ratings hold the average a and the
    count n: with a rating r from 1 to 5 [addReview] stores a document
    whose count is n + 1, whose average is (a * n + r) / (n + 1) and whose
    reviews are those of before followed by the one new review, every
    other document being left alone; with a rating outside that range the
    save fails validation, [addReview] throws and the collection is as
    before.  If before a successful call the count was the number of stored
    reviews and the average their arithmetic mean (in exact arithmetic),
    the same holds after it. *)
Theorem addReview_spec (now : Date) (db : Collection)
    (sellerId userId : string) (r : Q) (comment : option string)
    (i : nat) (seller : ILocalSeller) :
  findById sellerId db = Some (i, seller) →
  (∀ old, old ∈ reviews (ratings seller) → 1 <= rating old <= 5) →
  (1 <= r <= 5 →
     ∃ seller' db',
       addReview now db sellerId userId r comment = (Ok seller', db')
       ∧ count (ratings seller') = S (count (ratings seller))
       ∧ average (ratings seller')
           = (average (ratings seller) * ofCount (count (ratings seller)) + r)
             / (ofCount (count (ratings seller)) + 1)
       ∧ reviews (ratings seller')
           = reviews (ratings seller) ++ [mkReview userId r comment now]
       ∧ db' !! i = Some seller'
       ∧ (∀ j, j ≠ i → db' !! j = db !! j)
       ∧ (countIsLength (ratings seller) → averageIsMean (ratings seller) →
            countIsLength (ratings seller')
            ∧ averageIsMean (ratings seller')
            ∧ average (ratings seller')
                == meanRating (reviews (ratings seller'))))
  ∧ (¬ (1 <= r <= 5) →
       ∃ e, addReview now db sellerId userId r comment = (Throw e, db)).
Proof.
  intros Hfind Hold. unfold addReview. rewrite Hfind.
  rewrite (validate_reviewed now userId r comment seller Hold).
  unfold findById in Hfind. apply list_find_Some in Hfind as (Hi & _ & _).
  pose proof (lookup_lt_Some _ _ _ Hi) as Hlt.
  split.
  - intros Hr. apply validRating_true in Hr. rewrite Hr.
    eexists _, _. split; [reflexivity|]. split_and!.
    + simpl. lia.
    + reflexivity.
    + reflexivity.
    + by apply list_lookup_insert_eq.
    + intros j Hj. by apply list_lookup_insert_ne.
    + intros Hcount Hmean.
      pose proof (reviewed_average_is_mean now userId r comment seller
                    Hcount Hmean) as Havg.
      split_and!; [|by intros _|exact Havg].
      unfold countIsLength in *. simpl. rewrite length_app, Hcount. simpl. lia.
  - intros Hr. destruct (validRating r) eqn:Hv.
    + by apply validRating_true in Hv.
    + by eexists.
Qed.

Lemma addReview_spec_witness :
  (∃ seller' db',
     addReview 7%Z [freshSeller] "s1" "u1" 4 None = (Ok seller', db')
     ∧ count (ratings seller') = 1%nat
     ∧ average (ratings seller') == meanRating (reviews (ratings seller')))
  ∧ ∃ e, addReview 7%Z [freshSeller] "s1" "u1" 6 None = (Throw e, [freshSeller]).
Proof.
  destruct (addReview_spec 7%Z [freshSeller] "s1" "u1" 4 None 0%nat freshSeller)
    as [Hok _].
  { reflexivity. }
  { intros old Hin. by apply elem_of_nil in Hin. }
  destruct (addReview_spec 7%Z [freshSeller] "s1" "u1" 6 None 0%nat freshSeller)
    as [_ Hbad].
  { reflexivity. }
  { intros old Hin. by apply elem_of_nil in Hin. }
  split.
  - destruct Hok as (seller' & db' & Hrun & Hcount & _ & _ & _ & _ & Hinv).
    { split; discriminate. }
    exists seller', db'. split_and!; [exact Hrun|exact Hcount|].
    apply Hinv; [reflexivity|]. intros Hne. by destruct Hne.
  - apply Hbad. intros [_ Hle]. by apply Hle.
Defined.

(** Two ways the statement fails when it is read for every rating and with
    the mean alone as invariant.  A rating of 6 is refused at save: the
    call throws and the count stays 0.  And the average does not stay the
    mean on a document whose count is not the number of its reviews: with
    the one review of 4 and a count of 3 the average 4 is the mean before
    the call; a rating of 1 makes the average 13/4, and the mean of the two
    reviews is 5/2. *)
Lemma addReview_miscounted :
  addReview 7%Z [freshSeller] "s1" "u1" 6 None
    = (Throw (mkError "LocalSeller validation failed"), [freshSeller])
  ∧ ∃ seller',
      addReview 7%Z [miscountedSeller] "s2" "u2" 1 None
        = (Ok seller', [seller'])
      ∧ averageIsMean (ratings miscountedSeller)
      ∧ average (ratings seller') = 13 / 4
      ∧ meanRating (reviews (ratings seller')) == 5 # 2
      ∧ ¬ averageIsMean (ratings seller').
Proof.
  split; [reflexivity|].
  eexists. split; [reflexivity|]. split_and!.
  - intros _. reflexivity.
  - reflexivity.
  - reflexivity.
  - intros Hmean. specialize (Hmean ltac:(discriminate)). discriminate Hmean.
Qed.

End LocalSellerProps.

(** * Further properties of the subscription lifecycle *)

Module SubscriptionExtra.
Import Subscription SubscriptionProps.

(** Writing back, at the place of the first match, a document that still
    matches leaves it the first match. *)
Lemma findOne_save (P : ISubscription → Prop) `{!∀ s, Decision (P s)}
    (db : Collection) (i : nat) (s s' : ISubscription) :
  findOne P db = Some (i, s) → P s' →
  findOne P (save i s' db) = Some (i, s').
Proof.
  unfold findOne, save. intros (Hi & HP & Hleast)%list_find_Some HP'.
  apply list_find_Some. split_and!; [|done|].
  - apply list_lookup_insert_eq. by eapply lookup_lt_Some.
  - intros j y Hj Hlt. rewrite list_lookup_insert_ne in Hj by lia.
    by eapply Hleast.
Qed.

Lemma findOne_is_None (P : ISubscription → Prop) `{!∀ s, Decision (P s)}
    (db : Collection) :
  findOne P db = None ↔ ∀ s, s ∈ db → ¬ P s.
Proof. unfold findOne. by rewrite list_find_None, Forall_forall. Qed.

(** A document appended to the collection is found only when no earlier
    one matches. *)
Lemma findOne_create (P : ISubscription → Prop) `{!∀ s, Decision (P s)}
    (db : Collection) (s : ISubscription) :
  P s →
  findOne P (create s db)
    = match findOne P db with
      | Some found => Some found
      | None => Some (length db, s)
      end.
Proof.
  intros HP. unfold create.
  destruct (findOne P db) as [[i old]|] eqn:Hfind.
  - unfold findOne in *. apply list_find_Some.
    apply list_find_Some in Hfind as (Hi & Hold & Hleast).
    split_and!; [by apply lookup_app_l_Some|done|].
    intros j y Hj Hlt. apply (Hleast j y); [|done].
    rewrite lookup_app_l in Hj; [done|].
    apply lookup_lt_Some in Hi. lia.
  - unfold findOne in *. rewrite list_find_None, Forall_forall in Hfind.
    apply list_find_Some.
    split_and!; [|done|].
    + by rewrite lookup_app_r, Nat.sub_diag.
    + intros j y Hj Hlt. rewrite lookup_app_l in Hj by done.
      apply Hfind. by eapply list_elem_of_lookup_2.
Qed.

(** X1. A subscription that has just been created is a trial that ends
    three months after its start, and [isSubscriptionActive] is true for
    its user and type at every instant before that end. *)
Theorem createSubscription_active (addMonths : Date → Z → Date)
    (now : Date) (db : Collection) (u t : string) (later : Date) :
  later < addMonths now 3 →
  ∃ s db',
    createSubscription addMonths now db u t = (Ok s, db')
    ∧ db' = db ++ [s]
    ∧ status s = trial ∧ isTrial s = true
    ∧ startDate s = now ∧ endDate s = addMonths now 3
    ∧ trialEndDate s = Some (addMonths now 3)
    ∧ isSubscriptionActive later db' u t = true.
Proof.
  intros Hlater. eexists _, _. split; [reflexivity|].
  split_and!; try reflexivity.
  apply isSubscriptionActive_true_iff. eexists. split.
  - unfold create. apply elem_of_app. right. apply list_elem_of_singleton.
    reflexivity.
  - split_and!; simpl; try done. by right.
Qed.

Lemma createSubscription_active_witness :
  ∃ s db',
    createSubscription thirtyDayMonths 0 [] "u1" "buyer" = (Ok s, db')
    ∧ isSubscriptionActive 1000 db' "u1" "buyer" = true.
Proof.
  destruct (createSubscription_active thirtyDayMonths 0 [] "u1" "buyer" 1000)
    as (s & db' & Hrun & _ & _ & _ & _ & _ & _ & Hactive).
  - reflexivity.
  - exists s, db'. by split.
Defined.

(** X2. [createSubscription] does not look for an existing subscription:
    the collection grows by one document in every case, and when the user
    already had one of that type [getSubscriptionStatus] keeps answering
    with the old one; only when there was none does it answer with the new
    trial. *)
Theorem createSubscription_keeps_older (addMonths : Date → Z → Date)
    (now : Date) (db : Collection) (u t : string) :
  ∃ s db',
    createSubscription addMonths now db u t = (Ok s, db')
    ∧ length db' = S (length db)
    ∧ getSubscriptionStatus db' u t
        = match getSubscriptionStatus db u t with
          | Some old => Some old
          | None => Some s
          end.
Proof.
  eexists _, _. split; [reflexivity|]. split.
  - unfold create. rewrite length_app. simpl. lia.
  - unfold getSubscriptionStatus. rewrite findOne_create by done.
    by destruct (findOne (byUserAndType u t) db) as [[i old]|].
Qed.

(** The sweep does not change what [isSubscriptionActive] looks at, from the
    time of the sweep on. *)
Lemma activeFilter_swept (now later : Date) (u t : string) (s : ISubscription) :
  now ≤ later →
  activeFilter later u t (swept now s) ↔ activeFilter later u t s.
Proof.
  intros Hle. unfold swept.
  destruct (decide (expiredFilter now s)) as [[Hend Hst]|Hno]; [|done].
  unfold activeFilter, statusInActiveTrial. simpl. split.
  - intros (_ & [Hc|Hc] & _); discriminate Hc.
  - intros (_ & _ & Hc). lia.
Qed.

(** X3. The answer of [isSubscriptionActive] at any instant from the time of
    a sweep on is the same whether the sweep has run or not. *)
Theorem isSubscriptionActive_sweep_independent (now later : Date)
    (db : Collection) (u t : string) :
  now ≤ later →
  isSubscriptionActive later (updateSubscriptionStatus now db) u t
    = isSubscriptionActive later db u t.
Proof.
  intros Hle. apply eq_true_iff_eq. rewrite !isSubscriptionActive_true_iff.
  rewrite updateSubscriptionStatus_fmap. split.
  - intros (x & Hx & HP). apply list_elem_of_fmap in Hx as (s & -> & Hs).
    exists s. split; [done|]. by apply (activeFilter_swept now later).
  - intros (s & Hs & HP). exists (swept now s). split.
    + apply list_elem_of_fmap. by exists s.
    + by apply activeFilter_swept.
Qed.

Lemma isSubscriptionActive_sweep_independent_witness :
  isSubscriptionActive 300 (updateSubscriptionStatus 200 [trialSub]) "u1" "seller"
    = isSubscriptionActive 300 [trialSub] "u1" "seller".
Proof.
  apply isSubscriptionActive_sweep_independent. lia.
Defined.





(** Dividing by a positive number of milliseconds and rounding up: the
    whole number of days that covers the span. *)
Lemma Qceiling_div_bounds (a b : Z) :
  0 < b →
  let d := Qceiling (inject_Z a / inject_Z b) in
  (d - 1) * b < a ≤ d * b.
Proof.
  intros Hb d.
  assert (0 < inject_Z b)%Q as HB.
  { change 0%Q with (inject_Z 0). by rewrite <- Zlt_Qlt. }
  pose proof (Qle_ceiling (inject_Z a / inject_Z b)) as Hup.
  pose proof (Qceiling_lt (inject_Z a / inject_Z b)) as Hlo.
  fold d in Hup, Hlo.
  assert (inject_Z a / inject_Z b * inject_Z b == inject_Z a)%Q as Hx.
  { field. intros Hz. rewrite Hz in HB. by apply Qlt_irrefl in HB. }
  set (x := (inject_Z a / inject_Z b)%Q) in *.
  split.
  - rewrite Zlt_Qlt, inject_Z_mult. rewrite <- Hx.
    apply Qmult_lt_compat_r; [done|]. exact Hlo.
  - rewrite Zle_Qle, inject_Z_mult. rewrite <- Hx.
    apply Qmult_le_compat_r; [exact Hup|]. by apply Qlt_le_weak.
Qed.

Lemma msPerDay_pos : 0 < msPerDay.
Proof. reflexivity. Qed.

Lemma getTrialDaysRemaining_found (now : Date) (db : Collection)
    (u t : string) (i : nat) (s : ISubscription) (e : Date) :
  findOne (trialFilter u t) db = Some (i, s) → trialEndDate s = Some e →
  getTrialDaysRemaining now db u t = Some (daysUntil now e).
Proof.
  intros Hfind He. unfold getTrialDaysRemaining, daysUntil.
  rewrite Hfind, He. by destruct (isAfter now e).
Qed.

Lemma daysUntil_bounds (now e : Date) :
  (e ≤ now → daysUntil now e = 0)
  ∧ (now < e →
       (daysUntil now e - 1) * msPerDay < e - now ≤ daysUntil now e * msPerDay).
Proof.
  unfold daysUntil, isAfter. split.
  - intros Hle. destruct (e <? now) eqn:Hlt; [done|].
    apply Z.ltb_ge in Hlt. assert (e - now = 0) as -> by lia.
    reflexivity.
  - intros Hlt. destruct (e <? now) eqn:Hc; [apply Z.ltb_lt in Hc; lia|].
    apply Qceiling_div_bounds, msPerDay_pos.
Qed.

(** X6. For a user whose first trial subscription of the type ends at [e],
    [getTrialDaysRemaining] answers 0 from the instant [e] on, and before
    it the least whole number of days that covers the time left: at least
    1, and less than a day more than the time left.  It answers [null]
    when the user has no trial subscription of the type. *)
Theorem getTrialDaysRemaining_spec (now : Date) (db : Collection)
    (u t : string) :
  (∀ i s e,
     findOne (trialFilter u t) db = Some (i, s) → trialEndDate s = Some e →
     ∃ d, getTrialDaysRemaining now db u t = Some d
       ∧ (e ≤ now → d = 0)
       ∧ (now < e → 1 ≤ d ∧ (d - 1) * msPerDay < e - now ≤ d * msPerDay))
  ∧ ((∀ s, s ∈ db → ¬ (userId s = u ∧ type s = t ∧ isTrial s = true)) →
       getTrialDaysRemaining now db u t = None).
Proof.
  split.
  - intros i s e Hfind He. exists (daysUntil now e).
    split; [by eapply getTrialDaysRemaining_found|].
    destruct (daysUntil_bounds now e) as [Hzero Hpos].
    split; [done|]. intros Hlt. specialize (Hpos Hlt).
    split; [|done]. pose proof msPerDay_pos. nia.
  - intros Hnone. unfold getTrialDaysRemaining.
    rewrite (findOne_None (trialFilter u t) db); [done|].
    intros s Hs [[Hu Ht] Htrial]. by apply (Hnone s Hs).
Qed.

Lemma getTrialDaysRemaining_spec_witness :
  (∃ d, getTrialDaysRemaining 40 [trialSub] "u1" "seller" = Some d ∧ 1 ≤ d)
  ∧ getTrialDaysRemaining 40 [paidSub] "u1" "seller" = None.
Proof.
  destruct (getTrialDaysRemaining_spec 40 [trialSub] "u1" "seller")
    as [Hfound _].
  destruct (getTrialDaysRemaining_spec 40 [paidSub] "u1" "seller")
    as [_ Hnone].
  split.
  - destruct (Hfound 0%nat trialSub 100) as (d & Hd & _ & Hpos);
      [reflexivity..|].
    exists d. split; [exact Hd|]. apply Hpos. lia.
  - apply Hnone. intros s Hs (_ & _ & Htrial).
    apply list_elem_of_singleton in Hs. subst s. discriminate Htrial.
Defined.

(** X7. The count of remaining trial days never goes up as time passes. *)
Theorem getTrialDaysRemaining_decreasing (now later : Date) (db : Collection)
    (u t : string) (d d' : Z) :
  now ≤ later →
  getTrialDaysRemaining now db u t = Some d →
  getTrialDaysRemaining later db u t = Some d' →
  0 ≤ d' ≤ d.
Proof.
  intros Hle Hd Hd'. unfold getTrialDaysRemaining in *.
  destruct (findOne (trialFilter u t) db) as [[i s]|]; [|done].
  destruct (trialEndDate s) as [e|]; [|done].
  unfold isAfter in *.
  destruct (e <? later) eqn:Hl.
  - injection Hd' as <-. destruct (e <? now) eqn:Hn.
    + injection Hd as <-. lia.
    + injection Hd as <-. apply Z.ltb_ge in Hn.
      pose proof (Qceiling_div_bounds (e - now) msPerDay msPerDay_pos) as Hb.
      pose proof msPerDay_pos. simpl in Hb. nia.
  - apply Z.ltb_ge in Hl. destruct (e <? now) eqn:Hn.
    { apply Z.ltb_lt in Hn. lia. }
    injection Hd as <-. injection Hd' as <-.
    pose proof (Qceiling_div_bounds (e - later) msPerDay msPerDay_pos) as Hb.
    pose proof msPerDay_pos. simpl in Hb. split; [nia|].
    apply Qceiling_resp_le.
    apply Qmult_le_compat_r.
    + rewrite <- Zle_Qle. lia.
    + apply Qinv_le_0_compat. change 0%Q with (inject_Z 0).
      rewrite <- Zle_Qle. lia.
Qed.

Lemma getTrialDaysRemaining_decreasing_witness :
  ∃ d d',
    getTrialDaysRemaining 10 [trialSub] "u1" "seller" = Some d
    ∧ getTrialDaysRemaining 150 [trialSub] "u1" "seller" = Some d'
    ∧ 0 ≤ d' ≤ d.
Proof.
  exists 1, 0. split; [reflexivity|]. split; [reflexivity|].
  apply (getTrialDaysRemaining_decreasing 10 150 [trialSub] "u1" "seller");
    [lia|reflexivity|reflexivity].
Defined.



(** A type that is neither "seller" nor "buyer" does not pass the guard. *)
Lemma invalidType_true (type : option string) :
  type ≠ Some "seller" → type ≠ Some "buyer" → invalidType type = true.
Proof.
  intros Hs Hb. unfold invalidType.
  rewrite (bool_decide_eq_false_2 _ Hs), (bool_decide_eq_false_2 _ Hb).
  simpl. apply orb_true_r.
Qed.

Lemma invalidType_false (t : string) :
  t = "seller" ∨ t = "buyer" → invalidType (Some t) = false.
Proof. by intros [-> | ->]. Qed.

(** X9. The status, create, cancel and trial-days routes answer 400
    "Invalid subscription type" and leave the collection as it was whenever
    the type is missing or is neither "seller" nor "buyer". *)
Theorem handlers_reject_invalid_type (addMonths : Date → Z → Date)
    (now : Date) (db : Collection) (reqUserId : string)
    (type : option string) :
  type ≠ Some "seller" → type ≠ Some "buyer" →
  statusHandler db reqUserId type
    = (mkReply 400 (BodyError "Invalid subscription type"), db)
  ∧ createHandler addMonths now db reqUserId type
      = (mkReply 400 (BodyError "Invalid subscription type"), db)
  ∧ cancelHandler db reqUserId type
      = (mkReply 400 (BodyError "Invalid subscription type"), db)
  ∧ trialDaysHandler now db reqUserId type
      = (mkReply 400 (BodyError "Invalid subscription type"), db).
Proof.
  intros Hs Hb. pose proof (invalidType_true type Hs Hb) as Hguard.
  unfold statusHandler, createHandler, cancelHandler, trialDaysHandler.
  by rewrite Hguard.
Qed.

Lemma handlers_reject_invalid_type_witness :
  createHandler thirtyDayMonths 0 [] "u1" (Some "admin")
    = (mkReply 400 (BodyError "Invalid subscription type"), []).
Proof.
  apply (handlers_reject_invalid_type thirtyDayMonths 0 [] "u1" (Some "admin"));
    discriminate.
Defined.

(** X10. With a valid type and no subscription of the user and type in the
    collection: the cancel route answers 500 "Failed to cancel subscription"
    and the renew route 500 "Failed to renew subscription" (for a non-zero
    amount and a non-empty transaction id), both leaving the collection as
    it was, while the status route answers 200 with [null]. *)
Theorem handlers_missing_subscription (addMonths : Date → Z → Date)
    (renewUntyped : Date → Collection → string → RenewBody
                    → Response * Collection)
    (now : Date) (db : Collection) (reqUserId t : string) (amount : Q)
    (transactionId : string) :
  t = "seller" ∨ t = "buyer" →
  ¬ (amount == 0)%Q → transactionId ≠ "" →
  (∀ s, s ∈ db → ¬ (userId s = reqUserId ∧ type s = t)) →
  cancelHandler db reqUserId (Some t)
    = (mkReply 500 (BodyError "Failed to cancel subscription"), db)
  ∧ renewHandler addMonths renewUntyped now db reqUserId
      (mkRenewBody (JsString t) (JsNumber amount) (JsString transactionId))
      = (mkResponse 500 (JsonError "Failed to renew subscription"), db)
  ∧ statusHandler db reqUserId (Some t) = (mkReply 200 (BodyJson None), db).
Proof.
  intros Ht Ha Hx Hnone.
  pose proof (findOne_None (byUserAndType reqUserId t) db Hnone) as Hfind.
  pose proof (invalidType_false t Ht) as Hguard.
  split_and!.
  - unfold cancelHandler. rewrite Hguard. simpl.
    unfold cancelSubscription. by rewrite Hfind.
  - rewrite renewHandler_forwards.
    + unfold renewSubscription. by rewrite Hfind.
    + apply truthy_nonempty. by destruct Ht as [-> | ->].
    + by apply truthy_nonzero.
    + by apply truthy_nonempty.
  - unfold statusHandler. rewrite Hguard. simpl.
    unfold getSubscriptionStatus. by rewrite Hfind.
Qed.

Lemma handlers_missing_subscription_witness :
  cancelHandler [] "u1" (Some "buyer")
    = (mkReply 500 (BodyError "Failed to cancel subscription"), [])
  ∧ renewHandler thirtyDayMonths untypedFails 0 [] "u1"
      (mkRenewBody (JsString "buyer") (JsNumber 499) (JsString "tx-1"))
      = (mkResponse 500 (JsonError "Failed to renew subscription"), [])
  ∧ statusHandler [] "u1" (Some "buyer") = (mkReply 200 (BodyJson None), []).
Proof.
  apply (handlers_missing_subscription thirtyDayMonths untypedFails 0 [] "u1"
           "buyer" 499%Q "tx-1").
  - by right.
  - discriminate.
  - discriminate.
  - intros s Hs. by apply elem_of_nil in Hs.
Defined.

End SubscriptionExtra.

(** * Further properties of the geo-distance and routing utilities *)

Module GeolocationExtra.
Import Geolocation GeolocationProps.

Section DistanceExtra.
Local Open Scope R_scope.

Lemma atan_nonneg (x : R) : 0 <= x → 0 <= atan x.
Proof.
  intros [Hpos|<-].
  - left. rewrite <- atan_0. by apply atan_increasing.
  - right. symmetry. apply atan_0.
Qed.

(** In the quadrant the Haversine formula calls it in, [atan2] is an angle
    between 0 and a right angle. *)
Lemma atan2_quadrant (y x : R) :
  0 <= y → 0 <= x → 0 <= atan2 y x <= PI / 2.
Proof.
  intros Hy Hx. pose proof PI_RGT_0 as Hpi. unfold atan2.
  destruct (Rlt_dec 0 x) as [Hxpos|Hx0].
  - split.
    + apply atan_nonneg. apply Rmult_le_pos; [done|].
      left. by apply Rinv_0_lt_compat.
    + left. apply atan_bound.
  - destruct (Rlt_dec x 0) as [Hneg|_]; [lra|].
    destruct (Rlt_dec 0 y) as [_|_]; [lra|].
    destruct (Rlt_dec y 0) as [Hneg|_]; lra.
Qed.

Lemma calculateDistance_range (lat1 lon1 lat2 lon2 : R) :
  0 <= calculateDistance lat1 lon1 lat2 lon2 <= 6371 * PI.
Proof.
  unfold calculateDistance. cbv zeta.
  match goal with
  | |- context [atan2 (sqrt ?a) (sqrt ?b)] =>
      pose proof (atan2_quadrant (sqrt a) (sqrt b) (sqrt_pos a) (sqrt_pos b))
        as Hq
  end.
  lra.
Qed.

(** X12. [isWithinRadius] gives the same answer when the point and the
    centre change places, stays true when the radius grows, and is false
    for every negative radius. *)
Theorem isWithinRadius_properties
    (pointLat pointLon centerLat centerLon radius : R) :
  isWithinRadius pointLat pointLon centerLat centerLon radius
    = isWithinRadius centerLat centerLon pointLat pointLon radius
  ∧ (∀ larger, radius <= larger →
       isWithinRadius pointLat pointLon centerLat centerLon radius = true →
       isWithinRadius pointLat pointLon centerLat centerLon larger = true)
  ∧ (radius < 0 →
       isWithinRadius pointLat pointLon centerLat centerLon radius = false).
Proof.
  unfold isWithinRadius. split_and!.
  - by rewrite (calculateDistance_sym pointLat pointLon centerLat centerLon).
  - intros larger Hle.
    destruct (Rle_dec _ radius) as [Hin|]; [intros _|done].
    destruct (Rle_dec _ larger) as [|Hout]; [done|]. lra.
  - intros Hneg.
    pose proof (calculateDistance_range pointLat pointLon centerLat centerLon).
    destruct (Rle_dec _ radius) as [Hin|]; [lra|done].
Qed.

Lemma isWithinRadius_properties_witness :
  isWithinRadius 28.61 77.2 19.07 72.87 (-1) = false.
Proof.
  apply (isWithinRadius_properties 28.61 77.2 19.07 72.87 (-1)). lra.
Defined.

End DistanceExtra.

(** *** Ordering a route that is already ordered *)

Section IdempotenceExtra.
Context {P D : Type}.
Variable distance : P → P → D.
Variable lt : D → D → bool.

(** With a nearest point already in hand and nothing closer ahead, the scan
    keeps its index. *)
Lemma scanNearest_keeps (current : P) (rest : list P) (i nearestIndex : nat)
    (m : D) :
  (∀ q, q ∈ rest → lt (distance current q) m = false) →
  scanNearest distance lt current rest i nearestIndex (Some m) = nearestIndex.
Proof.
  revert i. induction rest as [|p rest IH]; intros i Hfar; [done|].
  simpl. rewrite (Hfar p) by (by left).
  apply IH. intros q Hq. apply Hfar. by right.
Qed.

(** The stops of [NearestFirst] are the points that were to be visited. *)
Lemma NearestFirst_Permutation (closer : D → D → Prop) (current : P)
    (unvisited stops : list P) :
  NearestFirst distance closer current unvisited stops → stops ≡ₚ unvisited.
Proof.
  induction 1 as [|current before nearest after route _ _ _ IH]; [done|].
  rewrite IH. by rewrite Permutation_middle.
Qed.

Hypothesis lt_asym : ∀ a b, lt a b = true → lt b a = false.

(** On the stops of a nearest-first order the loop picks the head each
    time. *)
Lemma visitLoop_fixed (current : P) (unvisited stops : list P) :
  NearestFirst distance (λ a b, lt a b = true) current unvisited stops →
  ∀ fuel route, (length stops ≤ fuel)%nat →
  visitLoop distance lt fuel current stops route = Some (route ++ stops).
Proof.
  induction 1 as [|current before nearest after stops Hb Ha Hrest IH];
    intros fuel route Hfuel.
  - destruct fuel; simpl; by rewrite app_nil_r.
  - destruct fuel as [|fuel]; [simpl in Hfuel; lia|].
    assert (findNearestIndex distance lt current (nearest :: stops) = 0%nat)
      as Hidx.
    { unfold findNearestIndex. cbn [scanNearest belowMin].
      apply scanNearest_keeps. intros q Hq.
      rewrite (NearestFirst_Permutation _ _ _ _ Hrest) in Hq.
      apply elem_of_app in Hq as [Hq|Hq].
      - by apply lt_asym, Hb.
      - apply not_true_is_false. by apply Ha. }
    cbn [visitLoop]. rewrite Hidx. cbn [lookup list_lookup delete list_delete].
    rewrite IH by (simpl in Hfuel; lia).
    by rewrite <- app_assoc.
Qed.

Hypothesis lt_trans : ∀ a b c, lt a b = true → lt b c = true → lt a c = true.
Hypothesis lt_le_trans :
  ∀ a b c, lt a b = true → lt c b = false → lt a c = true.

Lemma optimalRoute_idempotent (points route : list P) :
  optimalRoute distance lt points = Some route →
  optimalRoute distance lt route = Some route.
Proof.
  unfold optimalRoute.
  destruct (length points <=? 2)%nat eqn:Hlen.
  - intros [= <-]. by rewrite Hlen.
  - destruct points as [|current unvisited]; [done|]. intros Hrun.
    destruct (visitLoop_nearest distance lt lt_trans lt_le_trans _ _ _ _ _ Hrun)
      as (stops & -> & Hstops).
    pose proof (NearestFirst_Permutation _ _ _ _ Hstops) as Hperm.
    pose proof (Permutation_length Hperm) as Hsame.
    cbn [app length] in *. rewrite Hsame, Hlen, <- Hsame.
    by rewrite (visitLoop_fixed current unvisited stops Hstops).
Qed.

End IdempotenceExtra.

(** X16. Ordering a route that [calculateOptimalRoute] has ordered changes
    nothing. *)
Theorem calculateOptimalRoute_idempotent (points route : list Point) :
  calculateOptimalRoute points = Some route →
  calculateOptimalRoute route = Some route.
Proof.
  apply optimalRoute_idempotent.
  - intros a b Hab%Rltb_true. apply Rltb_false. lra.
  - intros a b c Hab%Rltb_true Hbc%Rltb_true. apply Rltb_true. lra.
  - intros a b c Hab%Rltb_true Hcb%Rltb_false. apply Rltb_true. lra.
Qed.

Lemma calculateOptimalRoute_idempotent_witness :
  ∃ route,
    calculateOptimalRoute [mkPoint 0 0; mkPoint 2 2; mkPoint 1 1] = Some route
    ∧ calculateOptimalRoute route = Some route.
Proof.
  destruct (visitLoop_total pointDistance Rltb 2 (mkPoint 0 0)
              [mkPoint 2 2; mkPoint 1 1] [mkPoint 0 0])
    as (route & Hrun & _); [simpl; lia|].
  exists route. split; [exact Hrun|].
  apply (calculateOptimalRoute_idempotent
           [mkPoint 0 0; mkPoint 2 2; mkPoint 1 1]).
  exact Hrun.
Defined.

(** The same on points of a line, where it runs. *)
Example optimalRoute_line_idempotent :
  optimalRoute lineDistance Z.ltb [0; 1; 3; 3; 7; 10]%Z
    = Some [0; 1; 3; 3; 7; 10]%Z.
Proof. reflexivity. Qed.

(** *** Delivery estimates *)

Section DeliveryExtra.
Local Open Scope Q_scope.

Lemma Math_round_mono (x y : Q) : x <= y → Math_round x <= Math_round y.
Proof.
  intros Hle. unfold Math_round. rewrite <- Zle_Qle.
  apply Qfloor_resp_le. lra.
Qed.

(** X17. For a non-negative distance the delivery time is at least the base
    of 30 minutes, and a longer distance never gives a shorter time. *)
Theorem calculateDeliveryTime_properties (distance : Q) :
  0 <= distance →
  30 <= calculateDeliveryTime distance
  ∧ ∀ farther, distance <= farther →
      calculateDeliveryTime distance <= calculateDeliveryTime farther.
Proof.
  intros Hd. unfold calculateDeliveryTime. split.
  - change 30 with (inject_Z 30). rewrite Math_round_plus_int.
    pose proof (Math_round_nonneg (distance * 2)) as Hr. lra.
  - intros farther Hle. apply Math_round_mono. lra.
Qed.

Lemma calculateDeliveryTime_properties_witness :
  30 <= calculateDeliveryTime (7 # 2)
  ∧ calculateDeliveryTime (7 # 2) <= calculateDeliveryTime 10.
Proof.
  destruct (calculateDeliveryTime_properties (7 # 2)) as (Hbase & Hmono);
    [discriminate|].
  split; [exact Hbase|]. apply Hmono. discriminate.
Defined.

(** X18. With a base cost that is not negative, the delivery cost never
    goes down when the distance grows and never goes up when the free radius
    grows, and beyond the free radius it is at least the base cost. *)
Theorem calculateDeliveryCost_monotone (distance freeRadius base : Q) :
  0 <= base →
  (∀ farther, distance <= farther →
     calculateDeliveryCost distance freeRadius base
       <= calculateDeliveryCost farther freeRadius base)
  ∧ (∀ wider, freeRadius <= wider →
       calculateDeliveryCost distance wider base
         <= calculateDeliveryCost distance freeRadius base)
  ∧ (freeRadius < distance →
       base <= calculateDeliveryCost distance freeRadius base).
Proof.
  intros Hbase.
  assert (Hcost : ∀ d f, 0 <= calculateDeliveryCost d f base).
  { intros d f. unfold calculateDeliveryCost.
    destruct (Qle_bool d f) eqn:Hle; [lra|].
    assert (¬ d <= f) by (intros H%Qle_bool_iff; congruence).
    pose proof (Math_round_nonneg ((d - f) * 5)). lra. }
  split_and!.
  - intros farther Hle. unfold calculateDeliveryCost at 1.
    destruct (Qle_bool distance freeRadius) eqn:Hin; [apply Hcost|].
    assert (¬ distance <= freeRadius) by (intros H%Qle_bool_iff; congruence).
    unfold calculateDeliveryCost.
    destruct (Qle_bool farther freeRadius) eqn:Hin'.
    { apply Qle_bool_iff in Hin'. lra. }
    pose proof (Math_round_mono ((distance - freeRadius) * 5)
                  ((farther - freeRadius) * 5)). lra.
  - intros wider Hle. unfold calculateDeliveryCost at 1.
    destruct (Qle_bool distance wider) eqn:Hin; [apply Hcost|].
    assert (¬ distance <= wider) by (intros H%Qle_bool_iff; congruence).
    unfold calculateDeliveryCost.
    destruct (Qle_bool distance freeRadius) eqn:Hin'.
    { apply Qle_bool_iff in Hin'. lra. }
    pose proof (Math_round_mono ((distance - wider) * 5)
                  ((distance - freeRadius) * 5)). lra.
  - intros Hfar. unfold calculateDeliveryCost.
    destruct (Qle_bool distance freeRadius) eqn:Hin.
    { apply Qle_bool_iff in Hin. lra. }
    pose proof (Math_round_nonneg ((distance - freeRadius) * 5)). lra.
Qed.

Lemma calculateDeliveryCost_monotone_witness :
  calculateDeliveryCost 4 5 40 <= calculateDeliveryCost 9 5 40
  ∧ 40 <= calculateDeliveryCost 9 5 40.
Proof.
  destruct (calculateDeliveryCost_monotone 4 5 40) as (Hmono & _ & _);
    [discriminate|].
  destruct (calculateDeliveryCost_monotone 9 5 40) as (_ & _ & Hbase);
    [discriminate|].
  split; [apply Hmono; discriminate|apply Hbase; reflexivity].
Defined.

End DeliveryExtra.

End GeolocationExtra.

(** * Further properties of the seller documents *)

Module LocalSellerExtra.
Import LocalSeller LocalSellerProps.
Local Open Scope Q_scope.

Lemma findById_Some (sellerId : string) (db : Collection) (i : nat)
    (seller : ILocalSeller) :
  findById sellerId db = Some (i, seller) →
  db !! i = Some seller ∧ _id seller = sellerId ∧ (i < length db)%nat.
Proof.
  unfold findById. intros (Hi & Hid & _)%list_find_Some.
  split_and!; [done..|]. by eapply lookup_lt_Some.
Qed.

(** An update that keeps the id leaves the document where it is found. *)
Lemma findById_insert (sellerId : string) (db : Collection) (i : nat)
    (seller seller' : ILocalSeller) :
  findById sellerId db = Some (i, seller) → _id seller' = sellerId →
  findById sellerId (<[i := seller']> db) = Some (i, seller').
Proof.
  unfold findById. intros (Hi & Hid & Hleast)%list_find_Some Hid'.
  apply list_find_Some. split_and!; [|done|].
  - apply list_lookup_insert_eq. by eapply lookup_lt_Some.
  - intros j y Hj Hlt. rewrite list_lookup_insert_ne in Hj by lia.
    by eapply Hleast.
Qed.

Lemma addToSet_elem (p : string) (ps : list string) : p ∈ addToSet p ps.
Proof.
  unfold addToSet. destruct (decide (p ∈ ps)); [done|].
  apply elem_of_app. right. by left.
Qed.

Lemma addToSet_NoDup (p : string) (ps : list string) :
  NoDup ps → NoDup (addToSet p ps).
Proof.
  intros Hnd. unfold addToSet. destruct (decide (p ∈ ps)); [done|].
  apply NoDup_app. split_and!; [done| |apply NoDup_singleton].
  intros x Hx ->%list_elem_of_singleton. done.
Qed.

Lemma addToSet_idem (p : string) (ps : list string) :
  addToSet p (addToSet p ps) = addToSet p ps.
Proof.
  unfold addToSet at 1. by rewrite decide_True by apply addToSet_elem.
Qed.

Lemma pull_addToSet (p : string) (ps : list string) :
  p ∉ ps → pull p (addToSet p ps) = ps.
Proof.
  intros Hp. unfold addToSet. rewrite decide_False by done.
  unfold pull. rewrite filter_app. cbn [filter list_filter].
  rewrite decide_False by (by intros H; apply H).
  rewrite app_nil_r. induction ps as [|q ps IH]; [done|].
  apply not_elem_of_cons in Hp as [Hne Hp].
  rewrite filter_cons_True by done. by rewrite IH.
Qed.

(** X20. [addProduct] on an existing seller stores the product id among the
    seller's products, once: products without repetition stay so, and a
    second call with the same id changes nothing more.  The ratings are not
    touched.  With no seller of that id it answers [null], throws nothing
    and leaves the collection as it was. *)
Theorem addProduct_spec (db : Collection) (sellerId productId : string) :
  (∀ i seller, findById sellerId db = Some (i, seller) →
     ∃ seller' db',
       addProduct db sellerId productId = (Some seller', db')
       ∧ db' !! i = Some seller'
       ∧ productId ∈ products seller'
       ∧ (∀ q, q ∈ products seller' ↔ q = productId ∨ q ∈ products seller)
       ∧ (NoDup (products seller) → NoDup (products seller'))
       ∧ ratings seller' = ratings seller
       ∧ addProduct db' sellerId productId = (Some seller', db'))
  ∧ (findById sellerId db = None →
       addProduct db sellerId productId = (None, db)).
Proof.
  split.
  - intros i seller Hfind. unfold addProduct, findByIdAndUpdate.
    rewrite Hfind.
    pose proof (findById_Some _ _ _ _ Hfind) as (Hi & Hid & Hlt).
    eexists _, _. split; [reflexivity|]. split_and!.
    + by apply list_lookup_insert_eq.
    + apply addToSet_elem.
    + intros q. cbn [products withProducts]. unfold addToSet.
      destruct (decide (productId ∈ products seller)) as [Hin|Hout].
      * split; [by right|]. by intros [->|?].
      * rewrite elem_of_app, list_elem_of_singleton. tauto.
    + apply addToSet_NoDup.
    + reflexivity.
    + rewrite (findById_insert sellerId db i seller _ Hfind) by done.
      cbn [products withProducts _id businessName ratings status].
      rewrite addToSet_idem. by rewrite list_insert_insert_eq.
  - intros Hnone. unfold addProduct, findByIdAndUpdate. by rewrite Hnone.
Qed.

Lemma addProduct_spec_witness :
  ∃ seller' db',
    addProduct [freshSeller] "s1" "p1" = (Some seller', db')
    ∧ products seller' = ["p1"]
    ∧ addProduct db' "s1" "p1" = (Some seller', db')
    ∧ addProduct [freshSeller] "nobody" "p1" = (None, [freshSeller]).
Proof.
  destruct (addProduct_spec [freshSeller] "s1" "p1") as [Hfound _].
  destruct (addProduct_spec [freshSeller] "nobody" "p1") as [_ Hnone].
  destruct (Hfound 0%nat freshSeller) as (seller' & db' & Hrun & _ & _ & _ & _
                                          & _ & Hagain); [reflexivity|].
  exists seller', db'. split_and!; [exact Hrun| |exact Hagain|].
  - injection Hrun as <- _. reflexivity.
  - apply Hnone. reflexivity.
Defined.

(** X21. [removeProduct] on an existing seller leaves no occurrence of the
    product id among the seller's products and keeps every other product.
    Removing a product right after adding it, when the seller did not have
    it, gives back the collection as it was. *)
Theorem removeProduct_spec (db : Collection) (sellerId productId : string)
    (i : nat) (seller : ILocalSeller) :
  findById sellerId db = Some (i, seller) →
  (∃ seller' db',
     removeProduct db sellerId productId = (Some seller', db')
     ∧ db' !! i = Some seller'
     ∧ (productId ∉ products seller')
     ∧ (∀ q, q ∈ products seller' ↔ q ≠ productId ∧ q ∈ products seller))
  ∧ (productId ∉ products seller →
       ∃ added db1,
         addProduct db sellerId productId = (Some added, db1)
         ∧ removeProduct db1 sellerId productId = (Some seller, db)).
Proof.
  intros Hfind.
  pose proof (findById_Some _ _ _ _ Hfind) as (Hi & Hid & Hlt).
  split.
  - unfold removeProduct, findByIdAndUpdate. rewrite Hfind.
    eexists _, _. split; [reflexivity|]. split_and!.
    + by apply list_lookup_insert_eq.
    + cbn [products withProducts]. unfold pull.
      rewrite list_elem_of_filter. by intros [Hne _].
    + intros q. cbn [products withProducts]. unfold pull.
      by rewrite list_elem_of_filter.
  - intros Hout. unfold addProduct, removeProduct, findByIdAndUpdate.
    rewrite Hfind. eexists _, _. split; [reflexivity|].
    rewrite (findById_insert sellerId db i seller _ Hfind) by done.
    cbn [products withProducts _id businessName ratings status].
    rewrite pull_addToSet by done.
    rewrite list_insert_insert_eq.
    assert (withProducts (products seller) seller = seller) as Hsame
      by (by destruct seller).
    change (withProducts (products seller)
              (withProducts (addToSet productId (products seller)) seller))
      with (withProducts (products seller) seller).
    rewrite Hsame. by rewrite list_insert_id.
Qed.

Lemma removeProduct_spec_witness :
  ∃ added db1,
    addProduct [freshSeller] "s1" "p1" = (Some added, db1)
    ∧ removeProduct db1 "s1" "p1" = (Some freshSeller, [freshSeller]).
Proof.
  destruct (removeProduct_spec [freshSeller] "s1" "p1" 0%nat freshSeller)
    as [_ Hround]; [reflexivity|].
  apply Hround. intros Hin. by apply elem_of_nil in Hin.
Defined.

(** X22. [addReview] keeps the average within the range of the ratings, 1 to
    5: on a seller whose stored reviews have ratings from 1 to 5 and who
    has no rating yet or a stored average from 1 to 5, a call with a rating
    from 1 to 5 succeeds and the new average is from 1 to 5. *)
Theorem addReview_average_range (now : Date) (db : Collection)
    (sellerId userId : string) (r : Q) (comment : option string)
    (i : nat) (seller : ILocalSeller) :
  findById sellerId db = Some (i, seller) →
  (∀ old, old ∈ reviews (ratings seller) → 1 <= rating old <= 5) →
  count (ratings seller) = 0%nat ∨ 1 <= average (ratings seller) <= 5 →
  1 <= r <= 5 →
  ∃ seller' db',
    addReview now db sellerId userId r comment = (Ok seller', db')
    ∧ 1 <= average (ratings seller') <= 5.
Proof.
  intros Hfind Hvalid Hold Hr. unfold addReview. rewrite Hfind.
  rewrite (validate_reviewed now userId r comment seller Hvalid).
  rewrite (proj2 (validRating_true r) Hr).
  eexists _, _. split; [reflexivity|].
  cbn [reviewed ratings average].
  set (a := average (ratings seller)) in *.
  pose proof (ofCount_nonneg (count (ratings seller))) as Hn.
  set (n := ofCount (count (ratings seller))) in *.
  assert (0 < n + 1) as Hpos by lra.
  assert (1 * (n + 1) <= a * n + r ∧ a * n + r <= 5 * (n + 1)) as [H1 H2].
  { destruct Hold as [Hzero|[Hlo Hhi]].
    - subst n. rewrite Hzero. change (ofCount 0) with 0. split; lra.
    - split; nra. }
  split.
  - apply Qle_shift_div_l; [done|]. lra.
  - apply Qle_shift_div_r; [done|]. lra.
Qed.

Lemma addReview_average_range_witness :
  ∃ seller' db',
    addReview 7%Z [freshSeller] "s1" "u1" 4 None = (Ok seller', db')
    ∧ 1 <= average (ratings seller') <= 5.
Proof.
  apply (addReview_average_range 7%Z [freshSeller] "s1" "u1" 4 None 0%nat
           freshSeller).
  - reflexivity.
  - intros old Hin. by apply elem_of_nil in Hin.
  - left. reflexivity.
  - split; discriminate.
Defined.

(** The stored aggregate of every seller agrees with its stored reviews. *)
Lemma consistent_insert (db : Collection) (i : nat) (seller' : ILocalSeller) :
  Forall consistentRatings db → consistentRatings seller' →
  Forall consistentRatings (<[i := seller']> db).
Proof. intros Hall Hs. by apply Forall_insert. Qed.

(** X23. In exact arithmetic: if in every seller document the count is the
    number of stored reviews and the average their mean, the same is true
    after [addReview], [addProduct] and [removeProduct], whether the seller
    is found or not and whether the save passes validation or not. *)
Theorem consistentRatings_preserved (now : Date) (db : Collection)
    (sellerId userId productId : string) (r : Q) (comment : option string) :
  Forall consistentRatings db →
  Forall consistentRatings (addReview now db sellerId userId r comment).2
  ∧ Forall consistentRatings (addProduct db sellerId productId).2
  ∧ Forall consistentRatings (removeProduct db sellerId productId).2.
Proof.
  intros Hall.
  unfold addReview, addProduct, removeProduct, findByIdAndUpdate.
  destruct (findById sellerId db) as [[i seller]|] eqn:Hfind; [|done].
  apply findById_Some in Hfind as (Hi & _ & _).
  pose proof (proj1 (Forall_lookup _ _) Hall i seller Hi) as [Hcount Hmean].
  destruct (validate (reviewed now userId r comment seller)); cbn [snd];
    (split_and!; [|by apply consistent_insert..]); [|done].
  apply consistent_insert; [done|].
  split.
  - unfold countIsLength in *. cbn [reviewed ratings count reviews].
    rewrite length_app, Hcount. simpl. lia.
  - intros _. by apply reviewed_average_is_mean.
Qed.

Lemma consistentRatings_preserved_witness :
  Forall consistentRatings (addReview 7%Z [freshSeller] "s1" "u1" 4 None).2.
Proof.
  apply (consistentRatings_preserved 7%Z [freshSeller] "s1" "u1" "p1" 4 None).
  apply Forall_singleton. split; [reflexivity|]. intros Hne. by destruct Hne.
Defined.

End LocalSellerExtra.

(** * Properties of the client state *)

Module StoreProps.
Import Store.

Lemma userReducer_invariant (now : Z) (state : UserState) (action : UserAction) :
  userInvariant state → userInvariant (userReducer now state action).
Proof.
  intros [Hlen Hauth]. unfold userInvariant.
  destruct action; cbn [userReducer searchHistory isAuthenticated user];
    try (split; [done|done]).
  - split; [done|]. destruct payload as [u|]; cbn.
    + split; [by eexists|done].
    + split; [done|]. by intros [? ?].
  - split; [|done].
    destruct (50 <? length (_ :: searchHistory state))%nat eqn:Hfull.
    + unfold pop. rewrite length_take. cbn [length] in *. lia.
    + apply Nat.ltb_ge in Hfull. done.
  - split; [simpl; lia|done].
  - split; [simpl; lia|]. split; [done|]. by intros [? ?].
Qed.

(** X24. Whatever actions are dispatched from the initial state, the search
    history never holds more than 50 entries, and [isAuthenticated] is true
    exactly when a user is stored. *)
Theorem userState_invariant (actions : list (Z * UserAction)) :
  (length (searchHistory (dispatchAll initialState actions)) ≤ 50)%nat
  ∧ (isAuthenticated (dispatchAll initialState actions) = true
       ↔ is_Some (user (dispatchAll initialState actions))).
Proof.
  assert (Hinit : userInvariant initialState).
  { split; [simpl; lia|]. split; [done|]. by intros [? ?]. }
  unfold dispatchAll. revert Hinit. generalize initialState.
  induction actions as [|[now action] actions IH]; intros state Hinv.
  - exact Hinv.
  - cbn [foldl]. apply IH. by apply userReducer_invariant.
Qed.

(** X25. [addSearchHistory] puts the new entry, stamped with the current
    time, at the head of the history; on a history of at most 50 entries
    the rest is the old history, cut to its 49 most recent entries when it
    was full. *)
Theorem addSearchHistory_spec (now : Z) (state : UserState)
    (q : string) (n : Q) :
  (length (searchHistory state) ≤ 50)%nat →
  searchHistory (userReducer now state (addSearchHistory q n))
    = mkSearchEntry q n now :: take 49 (searchHistory state)
  ∧ user (userReducer now state (addSearchHistory q n)) = user state
  ∧ preferences (userReducer now state (addSearchHistory q n))
      = preferences state.
Proof.
  intros Hlen. cbn [userReducer searchHistory user preferences].
  split; [|done].
  destruct (50 <? length (_ :: searchHistory state))%nat eqn:Hfull.
  - apply Nat.ltb_lt in Hfull. cbn [length] in Hfull.
    unfold pop. cbn [length].
    replace (S (length (searchHistory state)) - 1)%nat with 50%nat by lia.
    reflexivity.
  - apply Nat.ltb_ge in Hfull. cbn [length] in Hfull.
    by rewrite take_ge by lia.
Qed.

Lemma addSearchHistory_spec_witness :
  searchHistory (userReducer 9 initialState (addSearchHistory "shoes" 3))
    = [mkSearchEntry "shoes" 3 9].
Proof.
  apply (addSearchHistory_spec 9 initialState "shoes" 3). simpl. lia.
Defined.

(** [indexOf] answers -1 exactly for an element that does not occur, and
    otherwise the place of its first occurrence. *)
Lemma indexOf_spec (x : string) (l : list string) :
  ((x ∉ l) ∧ indexOf x l = -1)
  ∨ (∃ before after,
       l = before ++ x :: after ∧ (x ∉ before)
       ∧ indexOf x l = Z.of_nat (length before)).
Proof.
  induction l as [|y l IH].
  - left. split; [apply not_elem_of_nil|done].
  - cbn [indexOf]. destruct (decide (y = x)) as [->|Hne].
    + right. exists [], l. split_and!; [done|apply not_elem_of_nil|done].
    + destruct IH as [[Hout Hidx]|(before & after & -> & Hout & Hidx)].
      * left. rewrite Hidx. split; [|done].
        apply not_elem_of_cons. by split.
      * right. exists (y :: before), after. rewrite Hidx.
        split_and!; [done| |].
        -- apply not_elem_of_cons. by split.
        -- destruct (Z.of_nat (length before) =? -1) eqn:Hc;
             [apply Z.eqb_eq in Hc; lia|].
           cbn [length]. lia.
Qed.

(** X26. [toggleMerchant] on a list of merchants without repetition gives a
    list without repetition in which the toggled merchant occurs exactly
    when it did not before, every other merchant occurring as before;
    toggling the same merchant twice gives back the same merchants,
    possibly in another order. *)
Theorem toggleMerchant_spec (payload : string) (merchants : list string) :
  NoDup merchants →
  NoDup (toggleMerchant payload merchants)
  ∧ (payload ∈ toggleMerchant payload merchants ↔ payload ∉ merchants)
  ∧ (∀ m, m ≠ payload →
       (m ∈ toggleMerchant payload merchants ↔ m ∈ merchants))
  ∧ toggleMerchant payload (toggleMerchant payload merchants) ≡ₚ merchants.
Proof.
  intros Hnd.
  assert (Hadd : ∀ l, payload ∉ l → toggleMerchant payload l = l ++ [payload]).
  { intros l Hout. unfold toggleMerchant.
    destruct (indexOf_spec payload l) as [[_ ->]|(b & a & -> & _ & _)]; [done|].
    destruct Hout. apply elem_of_app. right. by left. }
  assert (Hdel : ∀ b a, payload ∉ b →
            toggleMerchant payload (b ++ payload :: a) = b ++ a).
  { intros b a Hb. unfold toggleMerchant.
    destruct (indexOf_spec payload (b ++ payload :: a))
      as [[Hout _]|(b' & a' & Heq & Hb' & ->)].
    { destruct Hout. apply elem_of_app. right. by left. }
    destruct (Z.of_nat (length b') =? -1) eqn:Hc;
      [apply Z.eqb_eq in Hc; lia|].
    rewrite Nat2Z.id.
    assert (length b' = length b) as Hlen.
    { destruct (lt_eq_lt_dec (length b') (length b)) as [[Hlt|Heq']|Hgt];
        [|done|].
      - exfalso. apply Hb.
        assert ((b ++ payload :: a) !! length b' = Some payload) as Hl.
        { rewrite Heq. by apply list_lookup_middle. }
        rewrite lookup_app_l in Hl by done.
        by eapply list_elem_of_lookup_2.
      - exfalso. apply Hb'.
        assert ((b' ++ payload :: a') !! length b = Some payload) as Hl.
        { rewrite <- Heq. by apply list_lookup_middle. }
        rewrite lookup_app_l in Hl by done.
        by eapply list_elem_of_lookup_2. }
    rewrite Hlen. by apply delete_middle. }
  destruct (indexOf_spec payload merchants)
    as [[Hout _]|(b & a & -> & Hb & _)].
  - rewrite (Hadd merchants Hout).
    assert (NoDup (merchants ++ [payload])) as Hnd'.
    { apply NoDup_app. split_and!; [done| |apply NoDup_singleton].
      by intros x Hx ->%list_elem_of_singleton. }
    split_and!.
    + done.
    + split; [done|]. intros _. apply elem_of_app. right. by left.
    + intros m Hm. rewrite elem_of_app, list_elem_of_singleton. tauto.
    + rewrite (Hdel merchants [] Hout). by rewrite app_nil_r.
  - rewrite (Hdel b a Hb).
    apply NoDup_app in Hnd as (Hndb & Hdisj & Hnda).
    apply NoDup_cons in Hnda as [Ha Hnda].
    assert (payload ∉ b ++ a) as Hgone.
    { rewrite elem_of_app. tauto. }
    split_and!.
    + apply NoDup_app. split_and!; [done| |done].
      intros x Hx Hxa. apply (Hdisj x Hx). by right.
    + split; [done|]. intros Hno. destruct Hno.
      apply elem_of_app. right. by left.
    + intros m Hm. rewrite !elem_of_app, elem_of_cons. tauto.
    + rewrite (Hadd (b ++ a) Hgone), <- app_assoc.
      apply Permutation_app_head. symmetry. apply Permutation_cons_append.
Qed.

Lemma toggleMerchant_spec_witness :
  toggleMerchant "amazon" (toggleMerchant "amazon" ["amazon"; "flipkart"])
    ≡ₚ ["amazon"; "flipkart"].
Proof.
  apply (toggleMerchant_spec "amazon" ["amazon"; "flipkart"]).
  apply NoDup_cons. split.
  - intros Hin%list_elem_of_singleton. discriminate Hin.
  - apply NoDup_singleton.
Defined.

End StoreProps.
